(** * MPEG transport stream embedding of named payloads (mpegts.cc)

    A shallow embedding of [TSPacket], [TSWriter] and [TSReader] and the
    properties of the packet framing protocol they implement.

    Conventions of the embedding:
    - a byte ([unsigned char], or a [char] of a [std::string]) is a
      [Byte.byte]; a [std::vector<unsigned char>], a [std::string] and a
      [std::array<unsigned char, N>] are lists of bytes;
    - a [FILE *] is an [option]: [None] is the null pointer [fopen] returns
      when the file cannot be opened;
    - an input stream is the list of bytes still to be read together with
      its end-of-file indicator; an output stream is the list of bytes
      accepted so far together with the number of bytes the sink still
      accepts (a short write is a sink that has run out of room);
    - a computation either returns, or has undefined behaviour (a stdio
      call on a null [FILE *], [atoi] on a value that does not fit [int]);
    - the [while (!feof (infile))] loops are defined by recursion on a
      fuel that the entry points compute from the size of the input; the
      streams are such that no read fails (see [fread]). *)

From Stdlib Require Import Strings.Byte Strings.String Numbers.DecimalNat.
From Stdlib Require Import List Arith NArith Lia Bool.
Import ListNotations.

Set Implicit Arguments.

(** ** Outcomes *)

(** What a call comes to: a returned value, undefined behaviour, or a
    loop out of fuel.  The entry points [TSWriter.process] and
    [TSReader.load] never come to the last one (lemmas [process_total]
    and [load_total]). *)
Inductive Outcome (A : Type) : Type :=
| Returned (a : A)
| Undefined
| OutOfFuel.

Arguments Returned {A} a.
Arguments Undefined {A}.
Arguments OutOfFuel {A}.

Definition bind {A B : Type} (m : Outcome A) (k : A -> Outcome B) : Outcome B :=
  match m with
  | Returned a => k a
  | Undefined => Undefined
  | OutOfFuel => OutOfFuel
  end.

Notation "x <- m ;; k" := (bind m (fun x => k))
  (at level 61, m at next level, right associativity).
Notation "' pat <- m ;; k" := (bind m (fun x => match x with pat => k end))
  (at level 61, pat pattern, m at next level, right associativity).

(** ** Bytes and characters *)

Abbreviation byte := Byte.byte.

Definition NUL : byte := x00.
Definition char_G : byte := x47.
Definition char_colon : byte := x3a.
Definition char_LF : byte := x0a.
Definition char_CR : byte := x0d.

(** ** Error (utils.hh) *)

(** Modelled from the spec: class [Error] of utils.hh is not part of the
    sources at hand.  An error value is either [Error::Code::NONE] or
    carries a message; its conversion to [bool] is true exactly when it is
    not [NONE]. *)
Inductive Error : Type :=
| NONE
| Str (msg : string).

Definition is_error (e : Error) : bool :=
  match e with
  | NONE => false
  | Str _ => true
  end.

Definition bad_sync : Error :=
  Str "bad packet sync while reading transport (.ts) packet".
Definition short_read : Error :=
  Str "short read while reading transport stream (.ts) packet".
Definition short_write : Error :=
  Str "short write while writing transport stream (.ts) packet".
Definition unable_to_open : Error :=
  Str "unable to open data file".

(** ** Streams (stdio) *)

Record IFILE : Type := mkIFILE {
  rest : list byte;      (* bytes not yet read *)
  eof_flag : bool        (* the end-of-file indicator of the stream *)
}.

Record OFILE : Type := mkOFILE {
  content : list byte;   (* bytes accepted so far *)
  room : nat             (* bytes the sink still accepts *)
}.

(** [fopen (name, "r")] on a readable file with contents [bs]. *)
Definition opened (bs : list byte) : IFILE := mkIFILE bs false.

(** [fopen (name, "w")] on a sink that accepts [r] bytes. *)
Definition created (r : nat) : OFILE := mkOFILE [] r.

(** [fread (buf, 1, n, file)]: the bytes obtained and the stream after
    the call; the end-of-file indicator is raised when fewer than [n]
    bytes were left.  The stream is one whose reads do not fail: a read
    error (fewer bytes than asked with the error indicator raised and the
    end-of-file indicator clear) is not part of the model, and nothing
    here speaks of the source on such a stream. *)
Definition fread (n : nat) (file : IFILE) : list byte * IFILE :=
  let got := firstn n (rest file) in
  (got, mkIFILE (skipn n (rest file))
                (eof_flag file || (length got <? n))).

Definition feof (file : IFILE) : bool := eof_flag file.

(** [fwrite (buf, 1, length buf, file)]: the number of bytes accepted and
    the stream after the call.  The stream is unbuffered: the call that
    meets the full sink is the one that reports the short count.  With
    the buffer of a stream as [fopen] gives it the short count can show
    at a later call or at [fclose]; what the file holds in the end is the
    same. *)
Definition fwrite (buf : list byte) (file : OFILE) : nat * OFILE :=
  let k := Nat.min (length buf) (room file) in
  (k, mkOFILE (content file ++ firstn k buf) (room file - k)).

(** ** TSPacket *)

Inductive ID : Type := awmk_file | awmk_data | unknown.

Definition ID_eqb (a b : ID) : bool :=
  match a, b with
  | awmk_file, awmk_file => true
  | awmk_data, awmk_data => true
  | unknown, unknown => true
  | _, _ => false
  end.

Record TSPacket : Type := mkTSPacket { m_data : list byte }.

Definition packet_size : nat := 188.

(** A local [TSPacket p;] has indeterminate contents; they are never
    observed (a packet is only used after a read that filled all of it,
    or after [clear]).  The embedding starts such a packet zero-filled. *)
Definition fresh_packet : TSPacket := mkTSPacket (repeat x00 packet_size).

Definition get_id_bytes (type : ID) : list byte :=
  match type with
  | awmk_file => [x47; x1f; xff; x10; x41; x57; x4d; x4b; x66; x69; x6c; x65]
  | awmk_data => [x47; x1f; xff; x10; x41; x57; x4d; x4b; x64; x61; x74; x61]
  | unknown => repeat x00 12
  end.

(** [std::copy] of [src] over the front of [dst]. *)
Definition overwrite (src dst : list byte) : list byte :=
  src ++ skipn (length src) dst.

(** [TSPacket::read]: the returned flag, the packet, the stream and the
    error variable passed by reference, after the call. *)
Definition read (p : TSPacket) (file : IFILE) (err : Error)
  : bool * TSPacket * IFILE * Error :=
  let '(got, file') := fread packet_size file in
  let p' := mkTSPacket (overwrite got (m_data p)) in
  let bytes_read := length got in
  if bytes_read =? 0 then (false, p', file', err)
  else if bytes_read =? packet_size then
    if Byte.eqb (nth 0 (m_data p') x00) char_G then (true, p', file', err)
    else (false, p', file', bad_sync)
  else (false, p', file', short_read).

(** [TSPacket::write] on a non-null stream. *)
Definition write_to (p : TSPacket) (file : OFILE) : Error * OFILE :=
  let '(bytes_written, file') := fwrite (m_data p) file in
  if bytes_written =? length (m_data p) then (NONE, file')
  else (short_write, file').

(** [TSPacket::write]: [fwrite] on a null stream is undefined. *)
Definition write (p : TSPacket) (file : option OFILE)
  : Outcome (Error * option OFILE) :=
  match file with
  | None => Undefined
  | Some f => let '(e, f') := write_to p f in Returned (e, Some f')
  end.

Definition clear (type : ID) : TSPacket :=
  mkTSPacket (overwrite (get_id_bytes type) (repeat x00 packet_size)).

(** [p[n] = v] through [operator[]]. *)
Definition set_byte (p : TSPacket) (n : nat) (v : byte) : TSPacket :=
  mkTSPacket (firstn n (m_data p) ++ v :: skipn (S n) (m_data p)).

Definition id_eq (p : TSPacket) (offset : nat) (a b c d : byte) : bool :=
  Byte.eqb (nth offset (m_data p) x00) a
  && Byte.eqb (nth (offset + 1) (m_data p) x00) b
  && Byte.eqb (nth (offset + 2) (m_data p) x00) c
  && Byte.eqb (nth (offset + 3) (m_data p) x00) d.

Definition get_id (p : TSPacket) : ID :=
  if id_eq p 0 x47 x1f xff x10 && id_eq p 4 x41 x57 x4d x4b then
    if id_eq p 8 x66 x69 x6c x65 then awmk_file
    else if id_eq p 8 x64 x61 x74 x61 then awmk_data
    else unknown
  else unknown.

Definition size (p : TSPacket) : nat := length (m_data p).

(** [p.data().begin() + 12 .. p.data().end()]: the payload region. *)
Definition payload (p : TSPacket) : list byte := skipn 12 (m_data p).

(** ** TSWriter *)

Module TSWriter.

(** Modelled from the spec: [struct Entry] of mpegts.hh is not part of
    the sources at hand; an entry is a name and an opaque byte
    sequence. *)
Record Entry : Type := mkEntry {
  name : list byte;
  data : list byte
}.

(** [TSWriter::append_file], on the staged entries; [datafile] is the
    result of [fopen] and, when present, the contents of the file, which
    the [fgetc] loop reads to the end. *)
Definition append_file (entries : list Entry) (name : list byte)
           (datafile : option (list byte)) : Error * list Entry :=
  match datafile with
  | None => (unable_to_open, entries)
  | Some bytes => (NONE, entries ++ [mkEntry name bytes])
  end.

Fixpoint uint_bytes (d : Decimal.uint) : list byte :=
  match d with
  | Decimal.Nil => []
  | Decimal.D0 d => x30 :: uint_bytes d
  | Decimal.D1 d => x31 :: uint_bytes d
  | Decimal.D2 d => x32 :: uint_bytes d
  | Decimal.D3 d => x33 :: uint_bytes d
  | Decimal.D4 d => x34 :: uint_bytes d
  | Decimal.D5 d => x35 :: uint_bytes d
  | Decimal.D6 d => x36 :: uint_bytes d
  | Decimal.D7 d => x37 :: uint_bytes d
  | Decimal.D8 d => x38 :: uint_bytes d
  | Decimal.D9 d => x39 :: uint_bytes d
  end.

(** [sprintf (buf, "%zd", n)]: the decimal digits of [n]. *)
Definition sprintf_zd (n : nat) : list byte := uint_bytes (Nat.to_uint n).

(** [header = buf; header += ":" + entry.name; header += '\0';] *)
Definition make_header (entry : Entry) : list byte :=
  (sprintf_zd (length (data entry)) ++ (char_colon :: name entry)) ++ [NUL].

(** [v.insert (v.begin() + i, x)] *)
Definition insert_at (i : nat) (x : byte) (v : list byte) : list byte :=
  firstn i v ++ x :: skipn i v.

(** [for (i = 0; i < header.size(); i++) data.insert (data.begin() + i,
    header[i]);] from index [i] on, [header] being what is left of the
    header. *)
Fixpoint insert_header (i : nat) (header : list byte) (data : list byte)
  : list byte :=
  match header with
  | [] => data
  | c :: header' => insert_header (S i) header' (insert_at i c data)
  end.

(** The [while (data_pos < data.size())] loop; [data] is what is left of
    the framed sequence from [data_pos] on. *)
Fixpoint write_loop (data : list byte) (p_file : TSPacket) (pos : nat)
         (outfile : option OFILE)
  : Outcome (TSPacket * nat * option OFILE) :=
  match data with
  | [] => Returned (p_file, pos, outfile)
  | b :: data' =>
      let p_file := set_byte p_file pos b in
      let pos := S pos in
      if pos =? 188 then
        '(_, outfile) <- write p_file outfile ;;
        write_loop data' (clear awmk_data) 12 outfile
      else write_loop data' p_file pos outfile
  end.

(** The body of [for (auto entry : entries)]. *)
Definition process_entry (entry : Entry) (outfile : option OFILE)
  : Outcome (option OFILE) :=
  let header := make_header entry in
  let data := insert_header 0 header (data entry) in
  '(p_file, pos, outfile) <- write_loop data (clear awmk_file) 12 outfile ;;
  if negb (pos =? 12) then
    '(_, outfile) <- write p_file outfile ;;
    Returned outfile
  else Returned outfile.

Fixpoint process_entries (entries : list Entry) (outfile : option OFILE)
  : Outcome (option OFILE) :=
  match entries with
  | [] => Returned outfile
  | entry :: entries' =>
      outfile <- process_entry entry outfile ;;
      process_entries entries' outfile
  end.

(** The pass-through loop.  The error component is the value of an early
    [return err], or [NONE] when the loop ran to its end. *)
Fixpoint copy_loop (fuel : nat) (infile : IFILE) (outfile : option OFILE)
  : Outcome (Error * option OFILE) :=
  match fuel with
  | 0 => OutOfFuel
  | S fuel =>
      if feof infile then Returned (NONE, outfile)
      else
        let '(read_ok, p, infile, err) := read fresh_packet infile NONE in
        if negb read_ok then
          if is_error err then Returned (err, outfile)
          else copy_loop fuel infile outfile
        else
          '(_, outfile) <- write p outfile ;;
          copy_loop fuel infile outfile
  end.

Definition loop_fuel (infile : IFILE) : nat := S (S (length (rest infile))).

(** [TSWriter::process]: the returned error and the output stream when
    the function returns.  [feof] on a null stream is undefined. *)
Definition process (infile : option IFILE) (outfile : option OFILE)
           (entries : list Entry) : Outcome (Error * option OFILE) :=
  match infile with
  | None => Undefined
  | Some infile =>
      '(err, outfile) <- copy_loop (loop_fuel infile) infile outfile ;;
      if is_error err then Returned (err, outfile)
      else
        outfile <- process_entries entries outfile ;;
        Returned (NONE, outfile)
  end.

End TSWriter.

(** ** TSReader *)

Module TSReader.

(** Modelled from the spec: [struct Entry] and [struct Header] of
    mpegts.hh are not part of the sources at hand; a recovered entry is
    a name and its bytes, a header the [filename] and the parsed
    [data_size]. *)
Record Entry : Type := mkEntry {
  name : list byte;
  data : list byte
}.

Record Header : Type := mkHeader {
  filename : list byte;
  data_size : N
}.

(** The C string at [&data[0]] as a [std::string]: the bytes before
    the first NUL. *)
Fixpoint c_str (data : list byte) : list byte :=
  match data with
  | [] => []
  | c :: data' => if Byte.eqb c NUL then [] else c :: c_str data'
  end.

Definition is_digit (c : byte) : bool :=
  (48 <=? Byte.to_nat c) && (Byte.to_nat c <=? 57).

(** What [.] matches in the ECMAScript grammar of [std::regex]: any
    character but a line terminator. *)
Definition dot_matches (c : byte) : bool :=
  negb (Byte.eqb c char_LF) && negb (Byte.eqb c char_CR).

Fixpoint span_digits (s : list byte) : list byte * list byte :=
  match s with
  | [] => ([], [])
  | c :: s' =>
      if is_digit c then
        let '(ds, r) := span_digits s' in (c :: ds, r)
      else ([], s)
  end.

(** [regex_match (s, sm, header_re)], where [header_re] is a first
    group of any number of characters of the class 0-9, a colon, and a
    second group of any number of characters that the dot matches: the
    two sub-matches when the whole of [s] matches.  The first group can
    only be the longest run of leading digits, as a colon has to
    follow it. *)
Definition regex_match (s : list byte) : option (list byte * list byte) :=
  let '(sm1, r) := span_digits s in
  match r with
  | [] => None
  | c :: sm2 =>
      if Byte.eqb c char_colon && forallb dot_matches sm2
      then Some (sm1, sm2) else None
  end.

(** The regular expression itself, as a relation: [s] is a run of
    digits, a colon, and a run of characters that [.] matches. *)
Definition header_re (s sm1 sm2 : list byte) : Prop :=
  s = sm1 ++ char_colon :: sm2
  /\ forallb is_digit sm1 = true
  /\ forallb dot_matches sm2 = true.

Definition digit_value (c : byte) : N := N.of_nat (Byte.to_nat c - 48).

Fixpoint atoi_acc (s : list byte) (acc : N) : N :=
  match s with
  | [] => acc
  | c :: s' =>
      if is_digit c then atoi_acc s' (10 * acc + digit_value c)%N
      else acc
  end.

Definition INT_MAX : N := 2147483647.

(** [atoi] on the first sub-match, which is a possibly empty run of
    digits (so neither white space nor a sign is met).  The behaviour is
    undefined when the value is not representable in an [int]. *)
Definition atoi (s : list byte) : Outcome N :=
  let v := atoi_acc s 0 in
  if (v <=? INT_MAX)%N then Returned v else Undefined.

(** The [for] loop of [TSReader::parse_header] from index [i] on,
    [todo] being [data[i..]].  The result holds the returned flag and
    the two arguments passed by reference, after the call. *)
Fixpoint parse_header_from (header : Header) (data : list byte)
         (i : nat) (todo : list byte)
  : Outcome (bool * Header * list byte) :=
  match todo with
  | [] => Returned (false, header, data)
  | c :: todo' =>
      if Byte.eqb c NUL then
        let s := c_str data in
        match regex_match s with
        | Some (sm1, sm2) =>
            n <- atoi sm1 ;;
            Returned (true, mkHeader sm2 n, skipn (i + 1) data)
        | None => parse_header_from header data (S i) todo'
        end
      else parse_header_from header data (S i) todo'
  end.

Definition parse_header (header : Header) (data : list byte)
  : Outcome (bool * Header * list byte) :=
  parse_header_from header data 0 data.

(** The member [m_entries] and the locals of [TSReader::load] that live
    across the iterations of its loop. *)
Record State : Type := mkState {
  m_entries : list Entry;
  awmk_stream : list byte;
  header : Header;
  header_valid : bool
}.

(** The [else] branch of the loop of [TSReader::load]: what is done with
    a packet that was read.  The call of [reserve] after a successful
    parse changes the capacity of the vector only and is left out. *)
Definition process_packet (st : State) (p : TSPacket) : Outcome State :=
  let id := get_id p in
  let st :=
    if ID_eqb id awmk_file
    then mkState (m_entries st) [] (header st) false
    else st in
  if ID_eqb id awmk_file || ID_eqb id awmk_data then
    let st :=
      mkState (m_entries st) (awmk_stream st ++ payload p)
              (header st) (header_valid st) in
    st <- (if negb (header_valid st) then
             '(ok, h, d) <- parse_header (header st) (awmk_stream st) ;;
             if ok then Returned (mkState (m_entries st) d h true)
             else Returned (mkState (m_entries st) d h (header_valid st))
           else Returned st) ;;
    if header_valid st
       && (data_size (header st) <=? N.of_nat (length (awmk_stream st)))%N
    then
      let bytes := firstn (N.to_nat (data_size (header st))) (awmk_stream st) in
      Returned (mkState (m_entries st ++ [mkEntry (filename (header st)) bytes])
                        [] (header st) false)
    else Returned st
  else Returned st.

Fixpoint load_loop (fuel : nat) (infile : IFILE) (err : Error) (st : State)
  : Outcome (Error * State) :=
  match fuel with
  | 0 => OutOfFuel
  | S fuel =>
      if feof infile then Returned (NONE, st)
      else
        let '(read_ok, p, infile, err) := read fresh_packet infile err in
        if negb read_ok then
          if is_error err then Returned (err, st)
          else load_loop fuel infile err st
        else
          st <- process_packet st p ;;
          load_loop fuel infile err st
  end.

Definition loop_fuel (infile : IFILE) : nat := S (S (length (rest infile))).

(** The locals of [load] before its loop, for a reader holding
    [entries]. *)
Definition init (entries : list Entry) : State :=
  mkState entries [] (mkHeader [] 0) false.

(** [TSReader::load] on a reader holding [entries]: the returned error
    and the contents of [m_entries] when the function returns.  [feof]
    on a null stream is undefined. *)
Definition load (infile : option IFILE) (entries : list Entry)
  : Outcome (Error * list Entry) :=
  match infile with
  | None => Undefined
  | Some infile =>
      '(err, st) <- load_loop (loop_fuel infile) infile NONE (init entries) ;;
      Returned (err, m_entries st)
  end.

End TSReader.

(** ** Specification-level vocabulary

    The definitions below are not in the program; they name what the
    statements talk about. *)

(** The packet [clear (id)] leaves after [chunk] has been stored from
    offset 12 on. *)
Definition payload_packet (id : ID) (chunk : list byte) : TSPacket :=
  mkTSPacket (get_id_bytes id ++ chunk ++ repeat x00 (176 - length chunk)).

(** The framed sequence cut in chunks of 176 bytes, the first carried by a
    packet of kind [id] and the others by continuation packets. *)
Fixpoint chunk_packets (fuel : nat) (id : ID) (data : list byte)
  : list TSPacket :=
  match fuel with
  | 0 => []
  | S fuel =>
      match data with
      | [] => []
      | _ :: _ =>
          payload_packet id (firstn 176 data)
            :: chunk_packets fuel awmk_data (skipn 176 data)
      end
  end.

Definition framed (entry : TSWriter.Entry) : list byte :=
  TSWriter.make_header entry ++ TSWriter.data entry.

Definition entry_packets (entry : TSWriter.Entry) : list TSPacket :=
  chunk_packets (length (framed entry)) awmk_file (framed entry).

(** Writing packets one after the other, whatever each write reports. *)
Fixpoint write_all (pkts : list TSPacket) (outfile : option OFILE)
  : Outcome (option OFILE) :=
  match pkts with
  | [] => Returned outfile
  | p :: pkts' =>
      '(_, outfile) <- write p outfile ;;
      write_all pkts' outfile
  end.

(** A packet as it is found in a valid transport stream. *)
Definition valid_packet (p : TSPacket) : Prop :=
  length (m_data p) = 188 /\ nth 0 (m_data p) x00 = char_G.

Definition stream_of (pkts : list TSPacket) : list byte :=
  concat (map m_data pkts).

(** The reader's loop body over a sequence of packets. *)
Fixpoint run_packets (st : TSReader.State) (pkts : list TSPacket)
  : Outcome TSReader.State :=
  match pkts with
  | [] => Returned st
  | p :: pkts' =>
      st <- TSReader.process_packet st p ;;
      run_packets st pkts'
  end.

(** A byte sequence without a NUL byte. *)
Definition no_nul (s : list byte) : Prop :=
  forallb (fun c => negb (Byte.eqb c NUL)) s = true.

(** A name that the header pattern takes whole: no NUL, and no line
    terminator (which the dot of the pattern does not match). *)
Definition name_ok (n : list byte) : Prop :=
  no_nul n /\ forallb TSReader.dot_matches n = true.

(** An entry whose name is taken whole and whose size [atoi] can
    represent. *)
Definition entry_ok (entry : TSWriter.Entry) : Prop :=
  name_ok (TSWriter.name entry)
  /\ (N.of_nat (length (TSWriter.data entry)) <= TSReader.INT_MAX)%N.

(** The entry the reader is to recover for a staged entry. *)
Definition recovered (entry : TSWriter.Entry) : TSReader.Entry :=
  TSReader.mkEntry (TSWriter.name entry) (TSWriter.data entry).

(** The header text of an entry before its NUL terminator, and the
    header the reader is to parse from it. *)
Definition header_text (entry : TSWriter.Entry) : list byte :=
  TSWriter.sprintf_zd (length (TSWriter.data entry))
    ++ char_colon :: TSWriter.name entry.

Definition header_of (entry : TSWriter.Entry) : TSReader.Header :=
  TSReader.mkHeader (TSWriter.name entry)
                    (N.of_nat (length (TSWriter.data entry))).

(** The reader's locals once the bytes [c] of the framed sequence of
    [entry] have been taken in, the entry not being complete; [es] are the
    entries recovered before and [h0] the header variable left by them. *)
Definition state_of (entry : TSWriter.Entry) (es : list TSReader.Entry)
           (h0 : TSReader.Header) (c : list byte) : TSReader.State :=
  if length c <=? length (header_text entry)
  then TSReader.mkState es c h0 false
  else TSReader.mkState es (skipn (S (length (header_text entry))) c)
                        (header_of entry) true.

(** The reader's locals once [entry] is complete. *)
Definition done (entry : TSWriter.Entry) (es : list TSReader.Entry)
  : TSReader.State :=
  TSReader.mkState (es ++ [recovered entry]) [] (header_of entry) false.

(** What the reader does with a payload once the start marker has been
    dealt with: append, parse a header if none is known, complete the
    entry if enough bytes are there. *)
Definition absorb (st : TSReader.State) (x : list byte)
  : Outcome TSReader.State :=
  '(ok, h, d) <-
     (if TSReader.header_valid st
      then Returned (true, TSReader.header st, TSReader.awmk_stream st ++ x)
      else TSReader.parse_header (TSReader.header st)
                                 (TSReader.awmk_stream st ++ x)) ;;
  if ok && (TSReader.data_size h <=? N.of_nat (length d))%N
  then Returned
         (TSReader.mkState
            (TSReader.m_entries st
               ++ [TSReader.mkEntry (TSReader.filename h)
                     (firstn (N.to_nat (TSReader.data_size h)) d)])
            [] h false)
  else Returned (TSReader.mkState (TSReader.m_entries st) d h ok).

(** The reader's locals after a start marker. *)
Definition restart (st : TSReader.State) : TSReader.State :=
  TSReader.mkState (TSReader.m_entries st) [] (TSReader.header st) false.

(** The reader's locals once the marker of a packet of kind [id] has been
    looked at. *)
Definition start_state (id : ID) (st : TSReader.State) : TSReader.State :=
  match id with
  | awmk_file => restart st
  | _ => st
  end.

(** The values [TSPacket::read] can leave in an error variable that held
    no error. *)
Definition read_error (e : Error) : Prop :=
  e = NONE \/ e = bad_sync \/ e = short_read.

(** How a stream ends when it is not a whole number of valid packets:
    with fewer than 188 bytes, or with 188 bytes or more the first of
    which is not the sync byte; [e] is the error [TSPacket::read] sets. *)
Definition stops_with (tail : list byte) (e : Error) : Prop :=
  (0 < length tail < 188 /\ e = short_read)
  \/ (188 <= length tail /\ nth 0 tail x00 <> char_G /\ e = bad_sync).

(** Two reader states that agree on everything the rest of [load] can
    observe: the header variable only counts while [header_valid]. *)
Definition same_progress (a b : TSReader.State) : Prop :=
  TSReader.m_entries a = TSReader.m_entries b
  /\ TSReader.awmk_stream a = TSReader.awmk_stream b
  /\ TSReader.header_valid a = TSReader.header_valid b
  /\ (TSReader.header_valid a = true -> TSReader.header a = TSReader.header b).

Definition same_outcome (x y : Outcome TSReader.State) : Prop :=
  match x, y with
  | Returned a, Returned b => same_progress a b
  | Undefined, Undefined => True
  | OutOfFuel, OutOfFuel => True
  | _, _ => False
  end.

(** ** Sample data *)

Definition bytes_of (s : string) : list byte := list_byte_of_string s.

Definition entry_a : TSWriter.Entry :=
  TSWriter.mkEntry (bytes_of "a.txt") (bytes_of "hello").

Definition entry_b : TSWriter.Entry :=
  TSWriter.mkEntry (bytes_of "b.bin") (repeat x42 200).

(** An entry whose name holds colons and digits, and no data. *)
Definition entry_colon : TSWriter.Entry :=
  TSWriter.mkEntry (bytes_of "12:34:x") [].

(** An entry whose name holds a line feed. *)
Definition entry_lf : TSWriter.Entry :=
  TSWriter.mkEntry [x61; char_LF; x62] (bytes_of "xyz").

(** A packet of an ordinary transport stream: the sync byte and zeros. *)
Definition plain_packet : TSPacket := mkTSPacket (char_G :: repeat x00 187).

(** A continuation packet that no start packet precedes, whose payload
    happens to read as a header and three bytes. *)
Definition orphan_packet : TSPacket :=
  payload_packet awmk_data (bytes_of "3:x" ++ NUL :: bytes_of "abc").

(** A reader in the middle of an entry: a header is known and bytes are
    buffered. *)
Definition busy_state : TSReader.State :=
  TSReader.mkState [] (bytes_of "unfinished")
                   (TSReader.mkHeader (bytes_of "old") 999) true.

(** A reader with no accumulation in progress. *)
Definition idle_state : TSReader.State := TSReader.init [].

(** The start packet of [entry_a], and a start packet without NUL in its
    payload. *)
Definition start_packet_a : TSPacket :=
  payload_packet awmk_file (framed entry_a).

Definition filler_packet (id : ID) : TSPacket :=
  payload_packet id (repeat x2e 176).

(** ** ASCII decimal, in the words of the spec *)

(** The number that a run of ASCII decimal digits denotes. *)
Definition decimal_number (ds : list byte) : nat :=
  fold_left (fun acc c => 10 * acc + (Byte.to_nat c - 48)) ds 0.

(** [ds] is the ASCII decimal representation of [n]: a run of the
    characters 0 to 9 that is not empty, denotes [n], and has no leading
    zero unless it is the single character 0. *)
Definition ascii_decimal (n : nat) (ds : list byte) : Prop :=
  ds <> []
  /\ Forall (fun c => 48 <= Byte.to_nat c <= 57) ds
  /\ decimal_number ds = n
  /\ (hd x00 ds = x30 -> ds = [x30]).

(** ** Vocabulary of the further properties *)

(** Stores through [operator[]], in the order they are made; a store is
    an offset and a byte. *)
Definition store_all (p : TSPacket) (writes : list (nat * byte)) : TSPacket :=
  fold_left (fun p w => set_byte p (fst w) (snd w)) writes p.

(** A packet that carries one of the two markers. *)
Definition marked (p : TSPacket) : bool := negb (ID_eqb (get_id p) unknown).

(** A recovered entry, staged again. *)
Definition restage (entry : TSReader.Entry) : TSWriter.Entry :=
  TSWriter.mkEntry (TSReader.name entry) (TSReader.data entry).

(** A header as [parse_header] can leave it: a name the pattern takes
    whole and a size that fits [int]. *)
Definition header_ok (h : TSReader.Header) : Prop :=
  name_ok (TSReader.filename h) /\ (TSReader.data_size h <= TSReader.INT_MAX)%N.

(** The value of a run of decimal digits. *)
Definition decimal_value (ds : list byte) : N := TSReader.atoi_acc ds 0.

(** A reader state with the entries [es0] recovered before those it
    holds. *)
Definition with_earlier (es0 : list TSReader.Entry) (st : TSReader.State)
  : TSReader.State :=
  TSReader.mkState (es0 ++ TSReader.m_entries st) (TSReader.awmk_stream st)
                   (TSReader.header st) (TSReader.header_valid st).

Definition outcome_map {A B : Type} (f : A -> B) (x : Outcome A) : Outcome B :=
  match x with
  | Returned a => Returned (f a)
  | Undefined => Undefined
  | OutOfFuel => OutOfFuel
  end.

(** A recovered entry that could be staged and recovered again. *)
Definition reader_entry_ok (entry : TSReader.Entry) : Prop :=
  entry_ok (restage entry).

(** What holds of the reader's locals between two packets: the entries
    are such, and a header that is known is well formed and still waits
    for bytes. *)
Definition state_ok (st : TSReader.State) : Prop :=
  Forall reader_entry_ok (TSReader.m_entries st)
  /\ (TSReader.header_valid st = true ->
      header_ok (TSReader.header st)
      /\ (N.of_nat (length (TSReader.awmk_stream st))
          < TSReader.data_size (TSReader.header st))%N).

(** The number of packets [TSWriter::process] makes of an entry. *)
Definition packets_needed (entry : TSWriter.Entry) : nat :=
  (length (framed entry) + 175) / 176.

(** * Properties *)

(** ** Lists *)

Lemma firstn_app_exact {A} (l1 l2 : list A) n :
  n = length l1 -> firstn n (l1 ++ l2) = l1.
Proof.
  intros ->. rewrite firstn_app, Nat.sub_diag, firstn_all. simpl.
  apply app_nil_r.
Qed.

Lemma skipn_app_exact {A} (l1 l2 : list A) n :
  n = length l1 -> skipn n (l1 ++ l2) = l2.
Proof.
  intros ->. rewrite skipn_app, Nat.sub_diag, skipn_all. reflexivity.
Qed.

(** ** Packets *)

Lemma length_get_id_bytes id : length (get_id_bytes id) = 12.
Proof. destruct id; reflexivity. Qed.

Lemma clear_payload_packet id : clear id = payload_packet id [].
Proof. destruct id; reflexivity. Qed.

Lemma length_payload_packet id chunk :
  length chunk <= 176 -> length (m_data (payload_packet id chunk)) = 188.
Proof.
  intros H. unfold payload_packet. cbn [m_data].
  rewrite !length_app, repeat_length, length_get_id_bytes. lia.
Qed.

Lemma payload_payload_packet id chunk :
  payload (payload_packet id chunk) = chunk ++ repeat x00 (176 - length chunk).
Proof.
  unfold payload, payload_packet. cbn [m_data].
  apply skipn_app_exact. now rewrite length_get_id_bytes.
Qed.

Lemma get_id_payload_packet_file chunk :
  get_id (payload_packet awmk_file chunk) = awmk_file.
Proof. reflexivity. Qed.

Lemma get_id_payload_packet_data chunk :
  get_id (payload_packet awmk_data chunk) = awmk_data.
Proof. reflexivity. Qed.

Lemma valid_payload_packet id chunk :
  id <> unknown -> length chunk <= 176 -> valid_packet (payload_packet id chunk).
Proof.
  intros Hid H. split.
  - now apply length_payload_packet.
  - destruct id; [reflexivity | reflexivity | congruence].
Qed.

Lemma set_byte_payload_packet id cur b :
  length cur < 176 ->
  set_byte (payload_packet id cur) (12 + length cur) b
  = payload_packet id (cur ++ [b]).
Proof.
  intros H. unfold set_byte, payload_packet. cbn [m_data]. f_equal.
  rewrite length_app. cbn [length].
  replace (176 - length cur) with (S (176 - (length cur + 1))) by lia.
  cbn [repeat].
  rewrite (app_assoc (get_id_bytes id) cur) at 1.
  rewrite firstn_app_exact
    by (rewrite length_app, length_get_id_bytes; reflexivity).
  replace (get_id_bytes id ++ cur ++ x00 :: repeat x00 (176 - (length cur + 1)))
    with ((get_id_bytes id ++ cur ++ [x00]) ++ repeat x00 (176 - (length cur + 1)))
    by (rewrite <- !app_assoc; reflexivity).
  rewrite skipn_app_exact
    by (rewrite !length_app, length_get_id_bytes; simpl; lia).
  rewrite <- !app_assoc. reflexivity.
Qed.

(** ** The writer's loops *)

Lemma insert_header_app header : forall pre data,
  TSWriter.insert_header (length pre) header (pre ++ data)
  = pre ++ header ++ data.
Proof.
  induction header as [|c header IH]; intros pre data; cbn [TSWriter.insert_header].
  - reflexivity.
  - unfold TSWriter.insert_at.
    rewrite firstn_app_exact, skipn_app_exact by reflexivity.
    replace (pre ++ c :: data) with ((pre ++ [c]) ++ data)
      by (rewrite <- app_assoc; reflexivity).
    replace (S (length pre)) with (length (pre ++ [c]))
      by (rewrite length_app; simpl; lia).
    rewrite IH, <- app_assoc. reflexivity.
Qed.

Lemma insert_header_framed entry :
  TSWriter.insert_header 0 (TSWriter.make_header entry) (TSWriter.data entry)
  = framed entry.
Proof. exact (insert_header_app (TSWriter.make_header entry) [] _). Qed.

Lemma write_loop_fill data : forall cur id out,
  length cur + length data < 176 ->
  TSWriter.write_loop data (payload_packet id cur) (12 + length cur) out
  = Returned (payload_packet id (cur ++ data),
              12 + length cur + length data, out).
Proof.
  induction data as [|b data IH]; intros cur id out H; cbn [TSWriter.write_loop].
  - rewrite app_nil_r. cbn [length]. now rewrite Nat.add_0_r.
  - cbn [length] in H.
    rewrite set_byte_payload_packet by lia.
    destruct (Nat.eqb_spec (S (12 + length cur)) 188) as [E|_]; [lia|].
    replace (S (12 + length cur)) with (12 + length (cur ++ [b]))
      by (rewrite length_app; simpl; lia).
    rewrite IH by (rewrite length_app; simpl; lia).
    rewrite <- app_assoc, length_app. cbn [length app].
    do 3 f_equal. lia.
Qed.

Lemma write_loop_full data : forall cur id out,
  length cur < 176 -> 176 <= length cur + length data ->
  TSWriter.write_loop data (payload_packet id cur) (12 + length cur) out
  = ('(_, outfile) <-
       write (payload_packet id (cur ++ firstn (176 - length cur) data)) out ;;
     TSWriter.write_loop (skipn (176 - length cur) data) (clear awmk_data) 12
                         outfile).
Proof.
  induction data as [|b data IH]; intros cur id out Hc H; cbn [length] in H.
  - lia.
  - cbn [TSWriter.write_loop].
    rewrite set_byte_payload_packet by lia.
    destruct (Nat.eqb_spec (S (12 + length cur)) 188) as [E|E].
    + replace (176 - length cur) with 1 by lia. reflexivity.
    + replace (S (12 + length cur)) with (12 + length (cur ++ [b]))
        by (rewrite length_app; simpl; lia).
      rewrite IH by (rewrite length_app; simpl; lia).
      rewrite length_app. cbn [length].
      replace (176 - length cur) with (S (176 - (length cur + 1))) by lia.
      cbn [firstn skipn]. rewrite <- app_assoc. reflexivity.
Qed.

Lemma write_loop_short data id out :
  length data < 176 ->
  TSWriter.write_loop data (clear id) 12 out
  = Returned (payload_packet id data, 12 + length data, out).
Proof.
  intros H. rewrite clear_payload_packet.
  exact (write_loop_fill data [] id out H).
Qed.

Lemma write_loop_long data id out :
  176 <= length data ->
  TSWriter.write_loop data (clear id) 12 out
  = ('(_, outfile) <- write (payload_packet id (firstn 176 data)) out ;;
     TSWriter.write_loop (skipn 176 data) (clear awmk_data) 12 outfile).
Proof.
  intros H. rewrite clear_payload_packet at 1.
  apply (write_loop_full data [] id out); simpl; lia.
Qed.

Lemma chunk_packets_nil fuel id : chunk_packets fuel id [] = [].
Proof. destruct fuel; reflexivity. Qed.

Lemma chunk_packets_cons fuel id data :
  0 < length data ->
  chunk_packets (S fuel) id data
  = payload_packet id (firstn 176 data)
      :: chunk_packets fuel awmk_data (skipn 176 data).
Proof. destruct data; [simpl; lia | reflexivity]. Qed.

(** The loop over the framed sequence and the final write of a started
    packet write the chunks of the sequence, one packet each. *)
Lemma entry_loop_spec fuel : forall data id out,
  length data <= fuel ->
  ('(p_file, pos, outfile) <-
     TSWriter.write_loop data (clear id) 12 out ;;
   if negb (pos =? 12) then
     '(_, outfile) <- write p_file outfile ;; Returned outfile
   else Returned outfile)
  = write_all (chunk_packets fuel id data) out.
Proof.
  induction fuel as [|fuel IH]; intros data id out H.
  - destruct data; [reflexivity | simpl in H; lia].
  - destruct data as [|b data]; [reflexivity|].
    remember (b :: data) as F eqn:EF.
    assert (HF : 0 < length F) by (subst F; simpl; lia).
    rewrite chunk_packets_cons by assumption.
    destruct (Nat.lt_ge_cases (length F) 176) as [Hlt|Hge].
    + rewrite write_loop_short by assumption.
      cbn [bind].
      destruct (Nat.eqb_spec (12 + length F) 12) as [E12|_]; [lia|].
      rewrite firstn_all2 by lia. rewrite skipn_all2 by lia.
      rewrite chunk_packets_nil. reflexivity.
    + rewrite write_loop_long by assumption.
      cbn [write_all].
      destruct out as [f|]; [|reflexivity].
      cbn [write]. destruct (write_to _ f) as [e f']. cbn [bind].
      apply IH. rewrite length_skipn. lia.
Qed.

Lemma process_entry_spec entry out :
  TSWriter.process_entry entry out = write_all (entry_packets entry) out.
Proof.
  unfold TSWriter.process_entry, entry_packets.
  rewrite insert_header_framed. now apply entry_loop_spec.
Qed.

Lemma write_all_app pkts1 : forall pkts2 out,
  write_all (pkts1 ++ pkts2) out
  = (outfile <- write_all pkts1 out ;; write_all pkts2 outfile).
Proof.
  induction pkts1 as [|p pkts1 IH]; intros pkts2 out; [reflexivity|].
  cbn [app write_all].
  destruct (write p out) as [[e o]| |]; cbn [bind]; auto.
Qed.

Lemma process_entries_spec entries : forall out,
  TSWriter.process_entries entries out
  = write_all (flat_map entry_packets entries) out.
Proof.
  induction entries as [|e entries IH]; intros out; [reflexivity|].
  cbn [TSWriter.process_entries flat_map].
  rewrite write_all_app, process_entry_spec.
  destruct (write_all (entry_packets e) out); cbn [bind]; auto.
Qed.

(** What a sink holds after a sequence of packet writes: as much of the
    bytes of the packets as it had room for. *)
Lemma write_all_some pkts : forall f,
  write_all pkts (Some f)
  = Returned (Some (mkOFILE (content f ++ firstn (room f) (stream_of pkts))
                            (room f - length (stream_of pkts)))).
Proof.
  induction pkts as [|p pkts IH]; intros f.
  - cbn. rewrite firstn_nil, app_nil_r, Nat.sub_0_r. now destruct f.
  - cbn [write_all write write_to fwrite].
    destruct (_ =? _); cbn [bind]; rewrite IH; cbn [content room];
      unfold stream_of; cbn [map concat]; fold (stream_of pkts);
      rewrite firstn_app, length_app, <- app_assoc;
      destruct (Nat.le_ge_cases (length (m_data p)) (room f)) as [Hle|Hge].
    all: try (rewrite Nat.min_l by lia; rewrite firstn_all;
              rewrite (firstn_all2 (n := room f)) by lia;
              do 3 f_equal; lia).
    all: rewrite Nat.min_r by lia;
      replace (room f - room f) with 0 by lia;
      replace (room f - length (m_data p)) with 0 by lia;
      cbn [firstn]; do 3 f_equal; lia.
Qed.

(** ** The packets of an entry *)

Lemma ceil_step n :
  0 < n -> (n + 175) / 176 = S ((n - 176 + 175) / 176).
Proof.
  intros H. destruct (Nat.le_gt_cases n 176) as [Hle|Hgt].
  - replace (n - 176) with 0 by lia.
    replace (n + 175) with ((n - 1) + 1 * 176) by lia.
    rewrite Nat.div_add by lia.
    rewrite !Nat.div_small by lia. lia.
  - replace (n + 175) with ((n - 176 + 175) + 1 * 176) by lia.
    rewrite Nat.div_add by lia. lia.
Qed.

Lemma length_chunk_packets fuel : forall id data,
  length data <= fuel ->
  length (chunk_packets fuel id data) = (length data + 175) / 176.
Proof.
  induction fuel as [|fuel IH]; intros id data H.
  - destruct data; [reflexivity | simpl in H; lia].
  - destruct (Nat.eq_dec (length data) 0) as [E|E].
    + destruct data; [reflexivity | discriminate].
    + rewrite chunk_packets_cons by lia. cbn [length].
      rewrite IH by (rewrite length_skipn; lia).
      rewrite length_skipn. symmetry. apply ceil_step. lia.
Qed.

Lemma chunk_packets_continuation fuel : forall data,
  Forall (fun p => get_id p = awmk_data) (chunk_packets fuel awmk_data data).
Proof.
  induction fuel as [|fuel IH]; intros data; [constructor|].
  destruct data as [|b data]; [constructor|].
  cbn [chunk_packets]. constructor; [reflexivity | apply IH].
Qed.

Lemma chunk_packets_valid fuel : forall id data,
  id <> unknown -> Forall valid_packet (chunk_packets fuel id data).
Proof.
  induction fuel as [|fuel IH]; intros id data Hid; [constructor|].
  destruct data as [|b data]; [constructor|].
  cbn [chunk_packets]. constructor.
  - apply valid_payload_packet; [assumption|]. rewrite length_firstn. lia.
  - apply IH. discriminate.
Qed.

Lemma entry_packets_valid entry : Forall valid_packet (entry_packets entry).
Proof. apply chunk_packets_valid. discriminate. Qed.

Lemma length_stream_of pkts :
  Forall valid_packet pkts -> length (stream_of pkts) = 188 * length pkts.
Proof.
  induction 1 as [|p pkts [Hp _] _ IH]; [reflexivity|].
  unfold stream_of in *. cbn [map concat length].
  rewrite length_app, IH, Hp. lia.
Qed.

Lemma stream_of_app pkts1 pkts2 :
  stream_of (pkts1 ++ pkts2) = stream_of pkts1 ++ stream_of pkts2.
Proof. unfold stream_of. now rewrite map_app, concat_app. Qed.

(** ** Reading packets *)

Lemma read_valid p more err :
  valid_packet p ->
  read fresh_packet (opened (m_data p ++ more)) err
  = (true, p, opened more, err).
Proof.
  intros [Hlen Hsync]. unfold read, fread, opened. cbn [rest eof_flag].
  rewrite firstn_app_exact, skipn_app_exact by (now rewrite Hlen).
  unfold overwrite. rewrite Hlen. cbn [m_data fresh_packet].
  change (skipn 188 (repeat x00 packet_size)) with (@nil byte).
  rewrite app_nil_r, Hsync. destruct p as [d]. reflexivity.
Qed.

Lemma read_eof err eof :
  read fresh_packet (mkIFILE [] eof) err
  = (false, fresh_packet, mkIFILE [] true, err).
Proof. unfold read, fread. cbn. now rewrite orb_true_r. Qed.

Lemma read_bad_sync bad more err :
  length bad = 188 -> nth 0 bad x00 <> char_G ->
  exists p file,
    read fresh_packet (opened (bad ++ more)) err = (false, p, file, bad_sync).
Proof.
  intros Hlen Hsync. unfold read, fread, opened. cbn [rest eof_flag].
  rewrite firstn_app_exact, skipn_app_exact by (now rewrite Hlen).
  unfold overwrite. rewrite Hlen. cbn [m_data fresh_packet].
  change (skipn 188 (repeat x00 packet_size)) with (@nil byte).
  rewrite app_nil_r.
  destruct (Byte.eqb (nth 0 bad x00) char_G) eqn:E.
  - apply Byte.byte_dec_bl in E. contradiction.
  - cbn. eauto.
Qed.

Lemma read_short tail err :
  0 < length tail < 188 ->
  exists p file,
    read fresh_packet (opened tail) err = (false, p, file, short_read).
Proof.
  intros H. unfold read, fread, opened. cbn [rest eof_flag].
  rewrite firstn_all2 by (unfold packet_size; lia).
  destruct (Nat.eqb_spec (length tail) 0) as [E|_]; [lia|].
  destruct (Nat.eqb_spec (length tail) packet_size) as [E|_];
    [unfold packet_size in E; lia|].
  eauto.
Qed.

Lemma load_loop_prefix pkts : forall tail fuel st,
  Forall valid_packet pkts ->
  TSReader.load_loop (length pkts + fuel) (opened (stream_of pkts ++ tail))
                     NONE st
  = (st <- run_packets st pkts ;;
     TSReader.load_loop fuel (opened tail) NONE st).
Proof.
  induction pkts as [|p pkts IH]; intros tail fuel st Hv; [reflexivity|].
  inversion Hv as [|? ? Hp Hv']; subst.
  unfold stream_of. cbn [map concat length Nat.add TSReader.load_loop].
  fold (stream_of pkts). rewrite <- app_assoc.
  change (feof (opened _)) with false. cbv iota.
  rewrite read_valid by assumption. cbn [negb run_packets].
  destruct (TSReader.process_packet st p); cbn [bind]; auto.
Qed.

Lemma load_loop_end fuel st :
  TSReader.load_loop (S (S fuel)) (opened []) NONE st = Returned (NONE, st).
Proof.
  cbn [TSReader.load_loop]. change (feof (opened [])) with false. cbv iota.
  unfold opened. rewrite read_eof. reflexivity.
Qed.

Lemma copy_loop_prefix pkts : forall tail fuel out,
  Forall valid_packet pkts ->
  TSWriter.copy_loop (length pkts + fuel) (opened (stream_of pkts ++ tail)) out
  = (out <- write_all pkts out ;;
     TSWriter.copy_loop fuel (opened tail) out).
Proof.
  induction pkts as [|p pkts IH]; intros tail fuel out Hv; [reflexivity|].
  inversion Hv as [|? ? Hp Hv']; subst.
  unfold stream_of. cbn [map concat length Nat.add TSWriter.copy_loop].
  fold (stream_of pkts). rewrite <- app_assoc.
  change (feof (opened _)) with false. cbv iota.
  rewrite read_valid by assumption. cbn [negb write_all].
  destruct (write p out) as [[e o]| |]; cbn [bind]; auto.
Qed.

Lemma copy_loop_end fuel out :
  TSWriter.copy_loop (S (S fuel)) (opened []) out = Returned (NONE, out).
Proof.
  cbn [TSWriter.copy_loop]. change (feof (opened [])) with false. cbv iota.
  unfold opened. rewrite read_eof. reflexivity.
Qed.

(** ** Header text *)

Lemma forallb_weaken {A} (f g : A -> bool) (l : list A) :
  (forall x, f x = true -> g x = true) ->
  forallb f l = true -> forallb g l = true.
Proof.
  intros Hfg. induction l as [|x l IH]; [reflexivity|]. cbn [forallb].
  rewrite !andb_true_iff. intros [Hx Hl]. auto.
Qed.

Lemma is_digit_not_nul c :
  TSReader.is_digit c = true -> negb (Byte.eqb c NUL) = true.
Proof.
  destruct (Byte.eqb c NUL) eqn:E; [|reflexivity].
  apply Byte.byte_dec_bl in E. subst c. discriminate.
Qed.

Lemma is_digit_not_colon c :
  TSReader.is_digit c = true -> c <> char_colon.
Proof. intros H ->. discriminate. Qed.

Lemma uint_bytes_digits d :
  forallb TSReader.is_digit (TSWriter.uint_bytes d) = true.
Proof. induction d; cbn [TSWriter.uint_bytes forallb]; auto. Qed.

Lemma sprintf_zd_digits n :
  forallb TSReader.is_digit (TSWriter.sprintf_zd n) = true.
Proof. apply uint_bytes_digits. Qed.

Lemma atoi_acc_uint_bytes d : forall acc,
  TSReader.atoi_acc (TSWriter.uint_bytes d) (N.of_nat acc)
  = N.of_nat (Nat.of_uint_acc d acc).
Proof.
  induction d; intros acc;
    cbn [TSWriter.uint_bytes TSReader.atoi_acc Nat.of_uint_acc];
    try reflexivity.
  all: change (TSReader.is_digit _) with true; cbv iota.
  all: rewrite <- IHd; f_equal; rewrite Nat.tail_mul_spec.
  all: unfold TSReader.digit_value; cbn [Byte.to_nat Nat.sub]; lia.
Qed.

(** [atoi] reads back what [sprintf] printed. *)
Lemma atoi_sprintf_zd n :
  (N.of_nat n <= TSReader.INT_MAX)%N ->
  TSReader.atoi (TSWriter.sprintf_zd n) = Returned (N.of_nat n).
Proof.
  intros H. unfold TSReader.atoi, TSWriter.sprintf_zd.
  change 0%N with (N.of_nat 0). rewrite atoi_acc_uint_bytes.
  fold (Nat.of_uint (Nat.to_uint n)). rewrite Unsigned.of_to.
  now apply N.leb_le in H as ->.
Qed.

Lemma span_digits_app ds : forall c r,
  forallb TSReader.is_digit ds = true -> TSReader.is_digit c = false ->
  TSReader.span_digits (ds ++ c :: r) = (ds, c :: r).
Proof.
  induction ds as [|d ds IH]; intros c r Hds Hc; cbn [app TSReader.span_digits].
  - now rewrite Hc.
  - cbn [forallb] in Hds. apply andb_true_iff in Hds as [-> Hds].
    now rewrite IH.
Qed.

Lemma span_digits_spec s : forall ds r,
  TSReader.span_digits s = (ds, r) ->
  s = ds ++ r /\ forallb TSReader.is_digit ds = true
  /\ match r with [] => True | c :: _ => TSReader.is_digit c = false end.
Proof.
  induction s as [|c s IH]; intros ds r; cbn [TSReader.span_digits].
  - intros [= <- <-]. auto.
  - destruct (TSReader.is_digit c) eqn:Ec.
    + destruct (TSReader.span_digits s) as [ds' r'].
      intros [= <- <-]. destruct (IH ds' r' eq_refl) as (-> & Hd & Hr).
      cbn [forallb]. rewrite Ec, Hd. auto.
    + intros [= <- <-]. auto.
Qed.

(** The function [regex_match] decides the regular expression. *)
Lemma regex_match_complete s sm1 sm2 :
  TSReader.header_re s sm1 sm2 -> TSReader.regex_match s = Some (sm1, sm2).
Proof.
  intros (-> & Hd & Hdot). unfold TSReader.regex_match.
  rewrite span_digits_app by (assumption || reflexivity).
  now rewrite Hdot.
Qed.

Lemma regex_match_sound s sm1 sm2 :
  TSReader.regex_match s = Some (sm1, sm2) -> TSReader.header_re s sm1 sm2.
Proof.
  unfold TSReader.regex_match.
  destruct (TSReader.span_digits s) as [ds r] eqn:E.
  apply span_digits_spec in E as (-> & Hd & _).
  destruct r as [|c r]; [discriminate|].
  destruct (Byte.eqb c char_colon) eqn:Ec; [|discriminate].
  apply Byte.byte_dec_bl in Ec. subst c. cbn [andb].
  destruct (forallb TSReader.dot_matches r) eqn:Er; [|discriminate].
  intros [= <- <-]. repeat split; assumption.
Qed.

(** The sub-matches are determined by the string: the pattern is not
    ambiguous, whatever colons the name holds. *)
Lemma header_re_unique s sm1 sm2 sm1' sm2' :
  TSReader.header_re s sm1 sm2 -> TSReader.header_re s sm1' sm2' ->
  sm1 = sm1' /\ sm2 = sm2'.
Proof.
  intros H1 H2. apply regex_match_complete in H1, H2.
  rewrite H1 in H2. now injection H2.
Qed.

Lemma c_str_app pre r :
  no_nul pre -> TSReader.c_str (pre ++ NUL :: r) = pre.
Proof.
  unfold no_nul. induction pre as [|c pre IH]; cbn [app TSReader.c_str forallb].
  - reflexivity.
  - rewrite andb_true_iff. intros [Hc Hpre].
    apply negb_true_iff in Hc. rewrite Hc. now rewrite IH.
Qed.

Lemma parse_header_from_no_nul h data todo : forall i,
  no_nul todo ->
  TSReader.parse_header_from h data i todo = Returned (false, h, data).
Proof.
  unfold no_nul.
  induction todo as [|c todo IH]; intros i; cbn [TSReader.parse_header_from forallb].
  - reflexivity.
  - rewrite andb_true_iff. intros [Hc Htodo].
    apply negb_true_iff in Hc. rewrite Hc. now apply IH.
Qed.

Lemma parse_header_from_mismatch h data todo : forall i,
  TSReader.regex_match (TSReader.c_str data) = None ->
  TSReader.parse_header_from h data i todo = Returned (false, h, data).
Proof.
  induction todo as [|c todo IH]; intros i Hre; cbn [TSReader.parse_header_from].
  - reflexivity.
  - rewrite Hre. destruct (Byte.eqb c NUL); now apply IH.
Qed.

Lemma parse_header_from_match h sm1 sm2 r pre1 : forall pre0,
  no_nul pre1 ->
  TSReader.regex_match (TSReader.c_str (pre0 ++ pre1 ++ NUL :: r))
  = Some (sm1, sm2) ->
  TSReader.parse_header_from h (pre0 ++ pre1 ++ NUL :: r) (length pre0)
                             (pre1 ++ NUL :: r)
  = (n <- TSReader.atoi sm1 ;; Returned (true, TSReader.mkHeader sm2 n, r)).
Proof.
  unfold no_nul.
  induction pre1 as [|c pre1 IH]; intros pre0 Hnn Hre;
    cbn [app TSReader.parse_header_from].
  - change (Byte.eqb NUL NUL) with true. cbv iota.
    cbn [app] in Hre. rewrite Hre.
    replace (pre0 ++ NUL :: r) with ((pre0 ++ [NUL]) ++ r)
      by (rewrite <- app_assoc; reflexivity).
    rewrite skipn_app_exact by (rewrite length_app; simpl; lia).
    reflexivity.
  - cbn [forallb] in Hnn. apply andb_true_iff in Hnn as [Hc Hnn].
    apply negb_true_iff in Hc. rewrite Hc.
    replace (pre0 ++ c :: pre1 ++ NUL :: r)
      with ((pre0 ++ [c]) ++ pre1 ++ NUL :: r) in *
      by (rewrite <- app_assoc; reflexivity).
    replace (S (length pre0)) with (length (pre0 ++ [c]))
      by (rewrite length_app; simpl; lia).
    apply IH; [assumption|].
    rewrite <- Hre. do 2 f_equal. rewrite <- app_assoc. reflexivity.
Qed.

(** A buffer that starts with a well-formed header: the header is parsed
    and taken off the buffer. *)
Lemma parse_header_match h pre sm1 sm2 r :
  no_nul pre -> TSReader.regex_match pre = Some (sm1, sm2) ->
  TSReader.parse_header h (pre ++ NUL :: r)
  = (n <- TSReader.atoi sm1 ;; Returned (true, TSReader.mkHeader sm2 n, r)).
Proof.
  intros Hnn Hre. unfold TSReader.parse_header.
  apply parse_header_from_match with (pre0 := []); [assumption|].
  cbn [app]. now rewrite c_str_app.
Qed.

(** A length that [int] cannot hold leaves [atoi], and with it the
    parse, without defined result. *)
Lemma parse_header_overflow h :
  TSReader.parse_header h (bytes_of "2147483648:x" ++ [NUL]) = Undefined.
Proof. reflexivity. Qed.

Lemma parse_header_int_max h :
  TSReader.parse_header h (bytes_of "2147483647:x" ++ [NUL])
  = Returned (true, TSReader.mkHeader (bytes_of "x") 2147483647, []).
Proof. reflexivity. Qed.

(** ** The reader's loop body *)

(** Reduces the projections of a reader state written out as a record. *)
Ltac reader_fields :=
  cbn [TSReader.header_valid TSReader.header TSReader.awmk_stream
       TSReader.m_entries].

Lemma process_packet_file st p :
  get_id p = awmk_file ->
  TSReader.process_packet st p = absorb (restart st) (payload p).
Proof.
  intros E. unfold TSReader.process_packet, absorb, restart. rewrite E.
  cbn [ID_eqb orb TSReader.m_entries TSReader.awmk_stream TSReader.header
       TSReader.header_valid negb app].
  destruct (TSReader.parse_header (TSReader.header st) (payload p))
    as [[[[] h] d]| |]; reflexivity.
Qed.

Lemma process_packet_data st p :
  get_id p = awmk_data ->
  TSReader.process_packet st p = absorb st (payload p).
Proof.
  intros E. unfold TSReader.process_packet, absorb. rewrite E.
  cbn [ID_eqb orb TSReader.m_entries TSReader.awmk_stream TSReader.header
       TSReader.header_valid].
  destruct st as [es s h [|]];
    cbn [negb TSReader.m_entries TSReader.awmk_stream TSReader.header
         TSReader.header_valid bind].
  - reflexivity.
  - destruct (TSReader.parse_header h (s ++ payload p))
      as [[[[] h'] d]| |]; reflexivity.
Qed.

Lemma process_packet_unknown st p :
  get_id p = unknown -> TSReader.process_packet st p = Returned st.
Proof. intros E. unfold TSReader.process_packet. now rewrite E. Qed.

Lemma run_packets_app pkts1 : forall pkts2 st,
  run_packets st (pkts1 ++ pkts2)
  = (st <- run_packets st pkts1 ;; run_packets st pkts2).
Proof.
  induction pkts1 as [|p pkts1 IH]; intros pkts2 st; [reflexivity|].
  cbn [app run_packets].
  destruct (TSReader.process_packet st p); cbn [bind]; auto.
Qed.

(** ** Reassembly of one entry *)

Lemma no_nul_app a b : no_nul (a ++ b) <-> no_nul a /\ no_nul b.
Proof. unfold no_nul. rewrite forallb_app. apply andb_true_iff. Qed.

Section Reassembly.

Variable entry : TSWriter.Entry.
Hypothesis entry_is_ok : entry_ok entry.

Let nm := TSWriter.name entry.
Let D := TSWriter.data entry.
Let pre := header_text entry.
Let hdr := header_of entry.

Lemma framed_eq : framed entry = pre ++ NUL :: D.
Proof.
  unfold framed, TSWriter.make_header, pre, header_text, nm, D.
  now rewrite <- !app_assoc.
Qed.

Lemma pre_no_nul : no_nul pre.
Proof.
  destruct entry_is_ok as [[Hnn _] _].
  unfold pre, header_text. apply no_nul_app. split.
  - unfold no_nul.
    apply forallb_weaken with (f := TSReader.is_digit);
      [apply is_digit_not_nul | apply sprintf_zd_digits].
  - unfold no_nul in *. cbn [forallb]. now rewrite Hnn.
Qed.

Lemma pre_match :
  TSReader.regex_match pre = Some (TSWriter.sprintf_zd (length D), nm).
Proof.
  destruct entry_is_ok as [[_ Hdot] _].
  apply regex_match_complete. repeat split.
  - apply sprintf_zd_digits.
  - exact Hdot.
Qed.

Lemma parse_framed h r :
  TSReader.parse_header h (pre ++ NUL :: r) = Returned (true, hdr, r).
Proof.
  destruct entry_is_ok as [_ Hsz].
  rewrite (parse_header_match h r pre_no_nul pre_match).
  fold D in Hsz. now rewrite atoi_sprintf_zd.
Qed.

Lemma absorb_unparsed es h0 c x :
  no_nul (c ++ x) ->
  absorb (TSReader.mkState es c h0 false) x
  = Returned (TSReader.mkState es (c ++ x) h0 false).
Proof.
  intros Hnn. unfold absorb.
  reader_fields.
  unfold TSReader.parse_header.
  now rewrite parse_header_from_no_nul.
Qed.

Lemma size_leb_false (l r : list byte) :
  r <> [] -> (N.of_nat (length (l ++ r)) <=? N.of_nat (length l))%N = false.
Proof.
  intros Hr. apply N.leb_gt. rewrite length_app.
  destruct r; [contradiction | simpl; lia].
Qed.

Lemma size_leb_true (l r : list byte) :
  (N.of_nat (length l) <=? N.of_nat (length (l ++ r)))%N = true.
Proof. apply N.leb_le. rewrite length_app. lia. Qed.

Lemma absorb_mid es h0 c x more :
  c ++ x ++ more = pre ++ NUL :: D -> more <> [] ->
  absorb (state_of entry es h0 c) x
  = Returned (state_of entry es h0 (c ++ x)).
Proof.
  intros E Hmore. rewrite app_assoc in E.
  assert (Hlen : length c <= length (c ++ x))
    by (rewrite length_app; lia).
  destruct (app_eq_app _ _ _ _ E) as [l [[E1 E2]|[E1 E2]]].
  - destruct l as [|b l].
    + rewrite app_nil_r in E1. unfold state_of; fold pre hdr.
      destruct (Nat.leb_spec (length c) (length pre)) as [_|Hc];
        [|rewrite E1 in Hlen; lia].
      destruct (Nat.leb_spec (length (c ++ x)) (length pre)) as [_|Hcx];
        [|rewrite E1 in Hcx; lia].
      apply absorb_unparsed. rewrite E1. apply pre_no_nul.
    + injection E2 as <- ED.
      unfold state_of at 2; fold pre hdr.
      destruct (Nat.leb_spec (length (c ++ x)) (length pre)) as [Hcx|_];
        [rewrite E1, length_app in Hcx; simpl in Hcx; lia|].
      replace (skipn (S (length pre)) (c ++ x)) with l
        by (rewrite E1;
            replace (pre ++ NUL :: l) with ((pre ++ [NUL]) ++ l)
              by (now rewrite <- app_assoc);
            rewrite skipn_app_exact; [reflexivity|];
            rewrite length_app; simpl; lia).
      unfold state_of; fold pre hdr.
      destruct (Nat.leb_spec (length c) (length pre)) as [Hc|Hc];
        unfold absorb;
        reader_fields.
      * rewrite E1, parse_framed. cbn [bind andb].
        unfold hdr, header_of. cbn [TSReader.data_size].
        fold D; rewrite ED, size_leb_false by assumption. reflexivity.
      * cbn [bind andb]. unfold hdr, header_of. cbn [TSReader.data_size].
        replace (skipn (S (length pre)) c ++ x) with l.
        -- fold D; rewrite ED, size_leb_false by assumption. reflexivity.
        -- transitivity (skipn (S (length pre)) (c ++ x)).
           ++ rewrite E1.
              replace (pre ++ NUL :: l) with ((pre ++ [NUL]) ++ l)
                by (now rewrite <- app_assoc).
              rewrite skipn_app_exact; [reflexivity|].
              rewrite length_app; simpl; lia.
           ++ rewrite skipn_app.
              replace (S (length pre) - length c) with 0 by lia.
              reflexivity.
  - unfold state_of; fold pre hdr.
    assert (Hcx : length (c ++ x) <= length pre)
      by (rewrite E1, !length_app; lia).
    destruct (Nat.leb_spec (length c) (length pre)) as [_|Hc]; [|lia].
    destruct (Nat.leb_spec (length (c ++ x)) (length pre)) as [_|Hcx'];
      [|lia].
    apply absorb_unparsed.
    pose proof pre_no_nul as Hnn. rewrite E1 in Hnn.
    now apply no_nul_app in Hnn.
Qed.

Lemma absorb_last es h0 c x pad :
  c ++ x = (pre ++ NUL :: D) ++ pad ->
  absorb (state_of entry es h0 c) x = Returned (done entry es).
Proof.
  intros E. rewrite <- app_assoc in E. cbn [app] in E.
  unfold state_of, absorb, done, recovered. fold pre hdr.
  destruct (Nat.leb_spec (length c) (length pre)) as [Hc|Hc];
    reader_fields.
  - rewrite E, parse_framed. cbn [bind andb]. unfold hdr, header_of.
    cbn [TSReader.data_size TSReader.filename].
    rewrite size_leb_true, Nat2N.id, firstn_app_exact by reflexivity.
    reflexivity.
  - cbn [bind andb]. unfold hdr, header_of.
    cbn [TSReader.data_size TSReader.filename].
    replace (skipn (S (length pre)) c ++ x) with (D ++ pad).
    + rewrite size_leb_true, Nat2N.id, firstn_app_exact by reflexivity.
      reflexivity.
    + transitivity (skipn (S (length pre)) (c ++ x)).
      * rewrite E.
        replace (pre ++ NUL :: D ++ pad) with ((pre ++ [NUL]) ++ D ++ pad)
          by (now rewrite <- app_assoc).
        rewrite skipn_app_exact; [reflexivity|].
        rewrite length_app; simpl; lia.
      * rewrite skipn_app.
        replace (S (length pre) - length c) with 0 by lia.
        reflexivity.
Qed.

End Reassembly.

Lemma process_packet_marked id st chunk :
  id <> unknown ->
  TSReader.process_packet st (payload_packet id chunk)
  = absorb (start_state id st) (chunk ++ repeat x00 (176 - length chunk)).
Proof.
  intros Hid. rewrite <- (payload_payload_packet id).
  destruct id; [| |congruence].
  - now apply process_packet_file.
  - now apply process_packet_data.
Qed.

(** The reader over the packets that carry what is left of the framed
    sequence of an entry. *)
Lemma run_chunks entry (Hok : entry_ok entry) fuel :
  forall id st es h0 c rem,
    id <> unknown ->
    start_state id st = state_of entry es h0 c ->
    c ++ rem = framed entry -> rem <> [] -> length rem <= fuel ->
    run_packets st (chunk_packets fuel id rem) = Returned (done entry es).
Proof.
  induction fuel as [|fuel IH]; intros id st es h0 c rem Hid Hst E Hne Hlen.
  - destruct rem; [contradiction | simpl in Hlen; lia].
  - assert (Hpos : 0 < length rem) by (destruct rem; [contradiction | simpl; lia]).
    rewrite chunk_packets_cons by assumption. cbn [run_packets].
    rewrite process_packet_marked, Hst by assumption.
    rewrite framed_eq in E.
    destruct (Nat.le_gt_cases (length rem) 176) as [Hle|Hgt].
    + rewrite firstn_all2 by assumption.
      rewrite (absorb_last Hok es h0 c (rem ++ repeat x00 (176 - length rem))
                           (repeat x00 (176 - length rem)))
        by (now rewrite app_assoc, E).
      cbn [bind]. rewrite skipn_all2 by assumption.
      now rewrite chunk_packets_nil.
    + rewrite length_firstn, Nat.min_l by lia.
      cbn [Nat.sub repeat]. rewrite app_nil_r.
      assert (Hmore : skipn 176 rem <> []).
      { intros E0. apply (f_equal (@length byte)) in E0.
        rewrite length_skipn in E0. simpl in E0. lia. }
      rewrite (absorb_mid Hok es h0 c (firstn 176 rem) (more := skipn 176 rem))
        by (rewrite ?firstn_skipn; assumption).
      cbn [bind].
      apply IH with (h0 := h0) (c := c ++ firstn 176 rem).
      * discriminate.
      * reflexivity.
      * now rewrite <- app_assoc, firstn_skipn, framed_eq.
      * assumption.
      * rewrite length_skipn. lia.
Qed.

Lemma framed_not_nil entry : framed entry <> [].
Proof.
  unfold framed, TSWriter.make_header.
  intros E. apply (f_equal (@length byte)) in E.
  rewrite !length_app in E. simpl in E. lia.
Qed.

(** The reader recovers an entry from the packets the writer makes of
    it, whatever it was doing before. *)
Lemma run_entry entry st :
  entry_ok entry ->
  run_packets st (entry_packets entry)
  = Returned (done entry (TSReader.m_entries st)).
Proof.
  intros Hok. unfold entry_packets.
  apply run_chunks with (h0 := TSReader.header st) (c := []);
    auto using framed_not_nil.
  discriminate.
Qed.

Lemma run_entries entries : forall st,
  Forall entry_ok entries ->
  exists st',
    run_packets st (flat_map entry_packets entries) = Returned st'
    /\ TSReader.m_entries st' = TSReader.m_entries st ++ map recovered entries.
Proof.
  induction entries as [|e entries IH]; intros st Hok.
  - exists st. cbn. now rewrite app_nil_r.
  - inversion Hok as [|? ? He Hes]; subst.
    cbn [flat_map map]. rewrite run_packets_app, run_entry by assumption.
    cbn [bind].
    destruct (IH (done e (TSReader.m_entries st)) Hes) as (st' & Hrun & Hent).
    exists st'. split; [assumption|].
    rewrite Hent. cbn [done TSReader.m_entries]. now rewrite <- app_assoc.
Qed.

(** ** The loops over a stream *)

Lemma loop_fuel_split pkts tail :
  Forall valid_packet pkts ->
  S (S (length (stream_of pkts ++ tail)))
  = length pkts + S (S (187 * length pkts + length tail)).
Proof. intros Hv. rewrite length_app, length_stream_of by assumption. lia. Qed.

Lemma load_loop_bad_sync fuel bad more st :
  length bad = 188 -> nth 0 bad x00 <> char_G ->
  TSReader.load_loop (S fuel) (opened (bad ++ more)) NONE st
  = Returned (bad_sync, st).
Proof.
  intros Hlen Hsync. cbn [TSReader.load_loop].
  change (feof (opened _)) with false. cbv iota.
  destruct (@read_bad_sync bad more NONE Hlen Hsync) as (p & f & ->).
  reflexivity.
Qed.

Lemma load_loop_short fuel tail st :
  0 < length tail < 188 ->
  TSReader.load_loop (S fuel) (opened tail) NONE st
  = Returned (short_read, st).
Proof.
  intros H. cbn [TSReader.load_loop].
  change (feof (opened _)) with false. cbv iota.
  destruct (@read_short tail NONE H) as (p & f & ->).
  reflexivity.
Qed.

Lemma copy_loop_bad_sync fuel bad more out :
  length bad = 188 -> nth 0 bad x00 <> char_G ->
  TSWriter.copy_loop (S fuel) (opened (bad ++ more)) out
  = Returned (bad_sync, out).
Proof.
  intros Hlen Hsync. cbn [TSWriter.copy_loop].
  change (feof (opened _)) with false. cbv iota.
  destruct (@read_bad_sync bad more NONE Hlen Hsync) as (p & f & ->).
  reflexivity.
Qed.

Lemma copy_loop_short fuel tail out :
  0 < length tail < 188 ->
  TSWriter.copy_loop (S fuel) (opened tail) out
  = Returned (short_read, out).
Proof.
  intros H. cbn [TSWriter.copy_loop].
  change (feof (opened _)) with false. cbv iota.
  destruct (@read_short tail NONE H) as (p & f & ->).
  reflexivity.
Qed.

(** On a valid transport stream [load] runs the loop body over the
    packets of the stream and returns no error. *)
Lemma load_valid pkts es :
  Forall valid_packet pkts ->
  TSReader.load (Some (opened (stream_of pkts))) es
  = (st <- run_packets (TSReader.init es) pkts ;;
     Returned (NONE, TSReader.m_entries st)).
Proof.
  intros Hv. unfold TSReader.load, TSReader.loop_fuel. cbn [rest opened].
  rewrite <- (app_nil_r (stream_of pkts)).
  rewrite loop_fuel_split, load_loop_prefix by assumption.
  destruct (run_packets (TSReader.init es) pkts); cbn [bind];
    [rewrite load_loop_end|..]; reflexivity.
Qed.

(** On a valid transport stream [process] writes the packets of the
    stream and then those of the staged entries, and returns no error. *)
Lemma process_valid pkts entries out :
  Forall valid_packet pkts ->
  TSWriter.process (Some (opened (stream_of pkts))) out entries
  = (o <- write_all (pkts ++ flat_map entry_packets entries) out ;;
     Returned (NONE, o)).
Proof.
  intros Hv. unfold TSWriter.process, TSWriter.loop_fuel. cbn [rest opened].
  rewrite <- (app_nil_r (stream_of pkts)).
  rewrite loop_fuel_split, copy_loop_prefix by assumption.
  rewrite write_all_app.
  destruct (write_all pkts out) as [o| |]; cbn [bind];
    [|reflexivity|reflexivity].
  rewrite copy_loop_end. cbn [bind is_error].
  now rewrite process_entries_spec.
Qed.

(** The loops end on every input. *)
Lemma parse_header_from_total h data todo : forall i,
  TSReader.parse_header_from h data i todo <> OutOfFuel.
Proof.
  induction todo as [|c todo IH]; intros i; cbn [TSReader.parse_header_from].
  - discriminate.
  - destruct (Byte.eqb c NUL); [|apply IH].
    destruct (TSReader.regex_match _) as [[sm1 sm2]|]; [|apply IH].
    unfold TSReader.atoi. destruct (_ <=? _)%N; discriminate.
Qed.

Lemma process_packet_total st p : TSReader.process_packet st p <> OutOfFuel.
Proof.
  unfold TSReader.process_packet.
  destruct (_ || _); [|discriminate].
  reader_fields.
  destruct (negb _).
  - unfold TSReader.parse_header.
    match goal with
    | |- context [TSReader.parse_header_from ?h ?d ?i ?t] =>
        pose proof (@parse_header_from_total h d t i) as H;
        destruct (TSReader.parse_header_from h d i t) as [[[[] h'] d']| |]
    end; cbn [bind]; try discriminate; try congruence.
    all: destruct (_ && _); discriminate.
  - cbn [bind]. destruct (_ && _); discriminate.
Qed.

Lemma load_loop_total fuel : forall infile err st,
  length (rest infile) + 2 <= fuel ->
  TSReader.load_loop fuel infile err st <> OutOfFuel.
Proof.
  induction fuel as [|fuel IH]; intros infile err st H; [lia|].
  cbn [TSReader.load_loop]. destruct (feof infile); [discriminate|].
  unfold read, fread.
  destruct (Nat.eqb_spec (length (firstn packet_size (rest infile))) 0) as [E0|E0].
  - cbn [negb]. destruct (is_error err); [discriminate|].
    destruct fuel as [|fuel]; [lia|].
    cbn [TSReader.load_loop feof eof_flag]. rewrite E0.
    cbn [Nat.ltb Nat.leb packet_size]. rewrite orb_true_r. discriminate.
  - destruct (Nat.eqb_spec (length (firstn packet_size (rest infile)))
                           packet_size) as [E1|E1].
    + rewrite length_firstn in E1. unfold packet_size in E1.
      assert (Hfuel : length (skipn packet_size (rest infile)) + 2 <= fuel)
        by (rewrite length_skipn; unfold packet_size; lia).
      destruct (Byte.eqb _ _); cbv beta iota; cbn [negb is_error bad_sync];
        [|discriminate].
      match goal with
      | |- context [TSReader.process_packet st ?p] =>
          pose proof (process_packet_total st p);
          destruct (TSReader.process_packet st p)
      end; cbn [bind]; [|discriminate|congruence].
      now apply IH.
    + discriminate.
Qed.

Lemma load_total infile es :
  TSReader.load infile es <> OutOfFuel.
Proof.
  destruct infile as [f|]; [|discriminate]. unfold TSReader.load.
  pose proof (@load_loop_total (TSReader.loop_fuel f) f NONE
                (TSReader.init es)) as H.
  destruct (TSReader.load_loop _ f NONE _) as [[e st]| |]; cbn [bind];
    try discriminate.
  exfalso. apply H; [unfold TSReader.loop_fuel; lia | reflexivity].
Qed.

Lemma copy_loop_total fuel : forall infile out,
  length (rest infile) + 2 <= fuel ->
  TSWriter.copy_loop fuel infile out <> OutOfFuel.
Proof.
  induction fuel as [|fuel IH]; intros infile out H; [lia|].
  cbn [TSWriter.copy_loop]. destruct (feof infile); [discriminate|].
  unfold read, fread.
  destruct (Nat.eqb_spec (length (firstn packet_size (rest infile))) 0) as [E0|E0].
  - cbn [negb is_error].
    destruct fuel as [|fuel]; [lia|].
    cbn [TSWriter.copy_loop feof eof_flag]. rewrite E0.
    cbn [Nat.ltb Nat.leb packet_size]. rewrite orb_true_r. discriminate.
  - destruct (Nat.eqb_spec (length (firstn packet_size (rest infile)))
                           packet_size) as [E1|E1].
    + rewrite length_firstn in E1. unfold packet_size in E1.
      assert (Hfuel : length (skipn packet_size (rest infile)) + 2 <= fuel)
        by (rewrite length_skipn; unfold packet_size; lia).
      destruct (Byte.eqb _ _); cbv beta iota; cbn [negb is_error bad_sync];
        [|discriminate].
      destruct (write _ out) as [[e o]| |] eqn:Ew; cbn [bind];
        [|discriminate|].
      * now apply IH.
      * exfalso. destruct out as [f|]; cbn [write] in Ew;
          [destruct (write_to _ f)|]; discriminate Ew.
    + discriminate.
Qed.

Lemma write_all_total pkts : forall out, write_all pkts out <> OutOfFuel.
Proof.
  induction pkts as [|p pkts IH]; intros out; [discriminate|].
  cbn [write_all]. destruct out as [f|]; [|discriminate].
  cbn [write]. destruct (write_to p f). cbn [bind]. apply IH.
Qed.

Lemma process_total infile out entries :
  TSWriter.process infile out entries <> OutOfFuel.
Proof.
  destruct infile as [f|]; [|discriminate]. unfold TSWriter.process.
  pose proof (@copy_loop_total (TSWriter.loop_fuel f) f out) as H.
  destruct (TSWriter.copy_loop _ f out) as [[e o]| |]; cbn [bind];
    try discriminate.
  - destruct (is_error e); [discriminate|].
    rewrite process_entries_spec.
    pose proof (write_all_total (flat_map entry_packets entries) o).
    destruct (write_all _ o); cbn [bind]; congruence.
  - exfalso. apply H; [unfold TSWriter.loop_fuel; lia | reflexivity].
Qed.

Lemma chunk_payloads fuel : forall id data,
  length data <= fuel ->
  exists k,
    k < 176
    /\ concat (map payload (chunk_packets fuel id data)) = data ++ repeat x00 k.
Proof.
  induction fuel as [|fuel IH]; intros id data H.
  - destruct data; [|simpl in H; lia]. exists 0. split; [lia | reflexivity].
  - destruct (Nat.eq_dec (length data) 0) as [E|E].
    + destruct data; [|discriminate]. exists 0. split; [lia | reflexivity].
    + rewrite chunk_packets_cons by lia. cbn [map concat].
      rewrite payload_payload_packet.
      destruct (Nat.le_gt_cases (length data) 176) as [Hle|Hgt].
      * rewrite firstn_all2, skipn_all2, chunk_packets_nil by assumption.
        exists (176 - length data). split; [lia|].
        cbn [map concat]. now rewrite app_nil_r.
      * destruct (IH awmk_data (skipn 176 data)) as (k & Hk & ->);
          [rewrite length_skipn; lia|].
        exists k. split; [assumption|].
        rewrite length_firstn, Nat.min_l by lia.
        cbn [Nat.sub repeat]. rewrite app_nil_r, app_assoc, firstn_skipn.
        reflexivity.
Qed.

Lemma length_framed entry :
  length (framed entry)
  = length (TSWriter.sprintf_zd (length (TSWriter.data entry))) + 1
    + length (TSWriter.name entry) + 1 + length (TSWriter.data entry).
Proof.
  unfold framed, TSWriter.make_header. rewrite !length_app. simpl. lia.
Qed.

Lemma entry_packets_cons entry :
  exists first others,
    entry_packets entry = first :: others
    /\ get_id first = awmk_file
    /\ Forall (fun p => get_id p = awmk_data) others.
Proof.
  unfold entry_packets.
  pose proof (framed_not_nil entry) as Hne.
  destruct (framed entry) as [|b F] eqn:EF; [contradiction|].
  cbn [length chunk_packets].
  eexists _, _. split; [reflexivity|]. split; [reflexivity|].
  apply chunk_packets_continuation.
Qed.

(** ** The errors the loops can return *)

Lemma read_error_kinds p file :
  let '(ok, _, _, e) := read p file NONE in
  read_error e /\ (ok = true -> e = NONE) /\ (is_error e = false -> e = NONE).
Proof.
  unfold read, fread, read_error.
  destruct (_ =? 0); [auto|].
  destruct (_ =? packet_size); [|split; [auto | split; discriminate]].
  destruct (Byte.eqb _ _); [auto|].
  split; [auto | split; discriminate].
Qed.

Lemma copy_loop_error_kinds fuel : forall infile out e o,
  TSWriter.copy_loop fuel infile out = Returned (e, o) -> read_error e.
Proof.
  induction fuel as [|fuel IH]; intros infile out e o; [discriminate|].
  cbn [TSWriter.copy_loop]. destruct (feof infile).
  - intros [= <- _]. now left.
  - pose proof (read_error_kinds fresh_packet infile) as Hr.
    destruct (read fresh_packet infile NONE) as [[[ok p] f] e0].
    destruct Hr as (Hk & _ & _). destruct ok; cbn [negb].
    + destruct (write p out) as [[e1 o1]| |]; cbn [bind];
        [apply IH | discriminate | discriminate].
    + destruct (is_error e0); [|apply IH]. now intros [= <- _].
Qed.

Lemma load_loop_error_kinds fuel : forall infile st e st',
  TSReader.load_loop fuel infile NONE st = Returned (e, st') -> read_error e.
Proof.
  induction fuel as [|fuel IH]; intros infile st e st'; [discriminate|].
  cbn [TSReader.load_loop]. destruct (feof infile).
  - intros [= <- _]. now left.
  - pose proof (read_error_kinds fresh_packet infile) as Hr.
    destruct (read fresh_packet infile NONE) as [[[ok p] f] e0].
    destruct Hr as (Hk & Hok & Hno). destruct ok; cbn [negb].
    + rewrite (Hok eq_refl).
      destruct (TSReader.process_packet st p); cbn [bind];
        [apply IH | discriminate | discriminate].
    + destruct (is_error e0) eqn:E0.
      * now intros [= <- _].
      * rewrite (Hno eq_refl). apply IH.
Qed.

Lemma process_error_kinds infile out entries e o :
  TSWriter.process infile out entries = Returned (e, o) -> read_error e.
Proof.
  destruct infile as [f|]; [|discriminate]. unfold TSWriter.process.
  destruct (TSWriter.copy_loop _ f out) as [[e0 o0]| |] eqn:Ec; cbn [bind];
    [|discriminate|discriminate].
  apply copy_loop_error_kinds in Ec.
  destruct (is_error e0).
  - now intros [= <- _].
  - destruct (TSWriter.process_entries entries o0); cbn [bind];
      [|discriminate|discriminate].
    intros [= <- _]. now left.
Qed.

Lemma load_error_kinds infile es e es' :
  TSReader.load infile es = Returned (e, es') -> read_error e.
Proof.
  destruct infile as [f|]; [|discriminate]. unfold TSReader.load.
  destruct (TSReader.load_loop _ f NONE _) as [[e0 st]| |] eqn:El; cbn [bind];
    [|discriminate|discriminate].
  apply load_loop_error_kinds in El. now intros [= <- _].
Qed.

(** ** The claims *)

(** *** The printed length against ASCII decimal *)

Lemma decimal_fold_uint_bytes d : forall acc,
  fold_left (fun acc c => 10 * acc + (Byte.to_nat c - 48))
            (TSWriter.uint_bytes d) acc
  = Nat.of_uint_acc d acc.
Proof.
  induction d; intros acc;
    cbn [TSWriter.uint_bytes fold_left Nat.of_uint_acc]; try reflexivity.
  all: rewrite IHd; f_equal; rewrite Nat.tail_mul_spec.
  all: cbn [Byte.to_nat Nat.sub]; lia.
Qed.

Lemma uint_bytes_in_range d :
  Forall (fun c => 48 <= Byte.to_nat c <= 57) (TSWriter.uint_bytes d).
Proof.
  induction d; cbn [TSWriter.uint_bytes]; constructor; try assumption.
  all: cbn [Byte.to_nat]; lia.
Qed.

Lemma nzhead_no_leading_zero d :
  match Decimal.nzhead d with
  | Decimal.D0 _ => False
  | _ => True
  end.
Proof. induction d; cbn [Decimal.nzhead]; auto. Qed.

Lemma to_uint_normal n : Decimal.unorm (Nat.to_uint n) = Nat.to_uint n.
Proof.
  rewrite <- (Unsigned.of_to n) at 2. symmetry. apply Unsigned.to_of.
Qed.

Lemma uint_bytes_head_zero d :
  hd x00 (TSWriter.uint_bytes d) = x30 -> exists d', d = Decimal.D0 d'.
Proof. destruct d; cbn [TSWriter.uint_bytes hd]; try discriminate; eauto. Qed.

(** What [sprintf] prints for a size is its ASCII decimal
    representation. *)
Lemma sprintf_zd_ascii_decimal n : ascii_decimal n (TSWriter.sprintf_zd n).
Proof.
  unfold ascii_decimal, TSWriter.sprintf_zd.
  pose proof (to_uint_normal n) as Hnorm.
  pose proof (nzhead_no_leading_zero (Nat.to_uint n)) as Hnz.
  unfold Decimal.unorm in Hnorm.
  split; [|split; [|split]].
  - destruct (Decimal.nzhead (Nat.to_uint n)) eqn:E;
      rewrite <- Hnorm; discriminate.
  - apply uint_bytes_in_range.
  - unfold decimal_number. rewrite decimal_fold_uint_bytes.
    apply (Unsigned.of_to n).
  - intros Hhd. apply uint_bytes_head_zero in Hhd as [d' Hd'].
    destruct (Decimal.nzhead (Nat.to_uint n)) eqn:E;
      try contradiction; rewrite <- Hnorm in Hd' |- *;
      [reflexivity | discriminate Hd'..].
Qed.

Lemma decimal_fold_ge ds : forall acc,
  acc <= fold_left (fun acc c => 10 * acc + (Byte.to_nat c - 48)) ds acc.
Proof.
  induction ds as [|c ds IH]; intros acc; cbn [fold_left]; [lia|].
  specialize (IH (10 * acc + (Byte.to_nat c - 48))). lia.
Qed.

Lemma decimal_number_snoc ds c :
  decimal_number (ds ++ [c]) = 10 * decimal_number ds + (Byte.to_nat c - 48).
Proof. unfold decimal_number. now rewrite fold_left_app. Qed.

Lemma byte_to_nat_inj a b : Byte.to_nat a = Byte.to_nat b -> a = b.
Proof.
  intros H. apply (f_equal Byte.of_nat) in H.
  rewrite !Byte.of_to_nat in H. now injection H.
Qed.

(** The ASCII decimal representation of a number is unique: the length
    of the printed size is a function of the size. *)
Lemma ascii_decimal_unique n : forall ds ds',
  ascii_decimal n ds -> ascii_decimal n ds' -> ds = ds'.
Proof.
  induction n as [n IH] using lt_wf_ind.
  assert (Hsplit : forall ds,
             ascii_decimal n ds ->
             exists init c,
               ds = init ++ [c] /\ 48 <= Byte.to_nat c <= 57
               /\ Byte.to_nat c - 48 = n mod 10
               /\ decimal_number init = n / 10
               /\ (init = [] \/ ascii_decimal (n / 10) init /\ 0 < n / 10)).
  { intros ds (Hne & Hd & Hval & Hz).
    destruct (exists_last Hne) as (init & c & ->).
    apply Forall_app in Hd as [Hinit Hc]. apply Forall_inv in Hc.
    rewrite decimal_number_snoc in Hval.
    assert (Hmod : Byte.to_nat c - 48 = n mod 10).
    { rewrite <- Hval, Nat.add_comm, Nat.mul_comm, Nat.Div0.mod_add.
      rewrite Nat.mod_small; lia. }
    assert (Hdiv : decimal_number init = n / 10).
    { rewrite <- Hval, Nat.add_comm, Nat.mul_comm, Nat.div_add by lia.
      rewrite Nat.div_small; lia. }
    exists init, c. repeat split; try assumption; try lia.
    destruct init as [|b init]; [now left|]. right.
    assert (Hb : b <> x30).
    { intros ->. specialize (Hz eq_refl). cbn [app] in Hz.
      injection Hz as Hz. destruct init; discriminate Hz. }
    assert (Hpos : 0 < decimal_number (b :: init)).
    { unfold decimal_number. cbn [fold_left].
      pose proof (decimal_fold_ge init (10 * 0 + (Byte.to_nat b - 48))).
      pose proof (Forall_inv Hinit) as Hb'. cbn beta in Hb'.
      assert (Byte.to_nat b <> 48)
        by (intros E; apply Hb, byte_to_nat_inj; exact E).
      lia. }
    split; [|lia].
    repeat split; try assumption; try discriminate.
    cbn [hd]. intros ->. contradiction. }
  intros ds ds' H H'.
  destruct (Hsplit ds H) as (init & c & -> & Hc & Hcm & Hiv & Hi).
  destruct (Hsplit ds' H') as (init' & c' & -> & Hc' & Hcm' & Hiv' & Hi').
  assert (c = c') by (apply byte_to_nat_inj; lia). subst c'.
  f_equal.
  destruct Hi as [->|[Hi Hp]], Hi' as [->|[Hi' Hp']].
  - reflexivity.
  - unfold decimal_number in Hiv. cbn [fold_left] in Hiv. lia.
  - unfold decimal_number in Hiv'. cbn [fold_left] in Hiv'. lia.
  - apply (IH (n / 10)); [|assumption|assumption].
    apply Nat.div_lt; [|lia].
    destruct (Nat.eq_dec n 0) as [->|]; [|lia].
    rewrite Nat.Div0.div_0_l in Hp; lia.
Qed.

(** C4 — packet count per entry.  Let an entry with name [n] and data [d]
    be staged, among any others, and let [L] be the length of its framed
    sequence: the ASCII decimal representation of the length of [d]
    (there is one and only one), a colon, [n], one NUL byte, then [d].
    On a valid input stream
    [TSWriter::process] writes, after the packets of the input and those
    of the entries staged before, exactly ceil(L/176) packets for the
    entry, and then those of the entries staged after: a first one with
    the start marker and then continuation packets only, all of 188
    bytes, whose payload regions hold the framed sequence followed by
    fewer than 176 bytes of zero padding.  When [L] is a multiple of 176
    the count is L/176: no further packet is written. *)
Theorem packets_per_entry pkts before entry after :
  Forall valid_packet pkts ->
  exists digits first others,
    ascii_decimal (length (TSWriter.data entry)) digits
    /\ (forall ds, ascii_decimal (length (TSWriter.data entry)) ds ->
                   ds = digits)
    /\ let L := length digits + 1 + length (TSWriter.name entry) + 1
                + length (TSWriter.data entry) in
       length (first :: others) = (L + 175) / 176
       /\ (L mod 176 = 0 -> length (first :: others) = L / 176)
       /\ get_id first = awmk_file
       /\ Forall (fun p => get_id p = awmk_data) others
       /\ Forall (fun p => size p = 188) (first :: others)
       /\ (exists k,
              k < 176
              /\ concat (map payload (first :: others))
                 = digits ++ char_colon :: TSWriter.name entry
                     ++ NUL :: TSWriter.data entry ++ repeat x00 k)
       /\ (forall out,
              TSWriter.process (Some (opened (stream_of pkts))) out
                               (before ++ entry :: after)
              = (o <- write_all (pkts ++ flat_map entry_packets before
                                   ++ (first :: others)
                                   ++ flat_map entry_packets after) out ;;
                 Returned (NONE, o)))
       /\ (forall f,
              188 * (length pkts + length (flat_map entry_packets before)
                     + (L + 175) / 176) <= room f ->
              exists f',
                TSWriter.process (Some (opened (stream_of pkts))) (Some f)
                                 (before ++ entry :: after)
                = Returned (NONE, Some f')
                /\ content f'
                   = content f ++ stream_of pkts
                       ++ stream_of (flat_map entry_packets before)
                       ++ stream_of (first :: others)
                       ++ firstn (room f
                                  - 188 * (length pkts
                                           + length (flat_map entry_packets
                                                       before)
                                           + (L + 175) / 176))
                            (stream_of (flat_map entry_packets after)))
       /\ (forall out,
              TSWriter.process_entry entry out
              = write_all (first :: others) out)
       /\ (forall f,
              188 * ((L + 175) / 176) <= room f ->
              TSWriter.process_entry entry (Some f)
              = Returned
                  (Some (mkOFILE (content f ++ stream_of (first :: others))
                                 (room f - 188 * ((L + 175) / 176))))).
Proof.
  intros Hv.
  set (digits := TSWriter.sprintf_zd (length (TSWriter.data entry))).
  destruct (entry_packets_cons entry) as (first & others & E & Hf & Ho).
  exists digits, first, others.
  split; [apply sprintf_zd_ascii_decimal|].
  split.
  { intros ds Hds.
    exact (ascii_decimal_unique Hds (sprintf_zd_ascii_decimal _)). }
  intros L.
  assert (HL : length (framed entry) = L) by apply length_framed.
  assert (Hcount : length (first :: others) = (L + 175) / 176).
  { rewrite <- E, <- HL. unfold entry_packets.
    now apply length_chunk_packets. }
  assert (Hvalid : Forall valid_packet (first :: others))
    by (rewrite <- E; apply entry_packets_valid).
  assert (Hflat : forall es, Forall valid_packet (flat_map entry_packets es)).
  { intros es. apply Forall_flat_map. apply Forall_forall. intros e _.
    apply entry_packets_valid. }
  assert (Hall : flat_map entry_packets (before ++ entry :: after)
                 = flat_map entry_packets before ++ (first :: others)
                     ++ flat_map entry_packets after).
  { rewrite flat_map_app. cbn [flat_map]. now rewrite E. }
  split; [exact Hcount|]. split; [|split; [exact Hf|split; [exact Ho|]]].
  { intros Hmod. rewrite Hcount.
    rewrite (Nat.div_mod_eq L 176) at 1. rewrite Hmod, Nat.add_0_r.
    replace (176 * (L / 176) + 175) with (175 + (L / 176) * 176) by lia.
    rewrite Nat.div_add by lia. rewrite Nat.div_small by lia. lia. }
  split; [|split; [|split; [|split; [|split]]]].
  - eapply Forall_impl; [|exact Hvalid]. intros p [Hp _]. exact Hp.
  - destruct (@chunk_payloads (length (framed entry)) awmk_file
                (framed entry) (le_n _)) as (k & Hk & Hpay).
    exists k. split; [exact Hk|].
    rewrite <- E. unfold entry_packets. rewrite Hpay.
    unfold framed, TSWriter.make_header. fold digits.
    rewrite <- !app_assoc. reflexivity.
  - intros out. rewrite process_valid by assumption. now rewrite Hall.
  - intros f Hroom. rewrite process_valid, Hall, write_all_some by assumption.
    cbn [bind]. eexists. split; [reflexivity|]. cbn [content].
    rewrite !stream_of_app.
    pose proof (length_stream_of Hv) as L1.
    pose proof (length_stream_of (Hflat before)) as L2.
    pose proof (length_stream_of Hvalid) as L3. rewrite Hcount in L3.
    rewrite !firstn_app, !L1, !L2, !L3.
    rewrite !firstn_all2 by lia.
    do 4 f_equal. f_equal. lia.
  - intros out. rewrite process_entry_spec. now rewrite E.
  - intros f Hroom. rewrite process_entry_spec, E, write_all_some.
    pose proof (length_stream_of Hvalid) as Hlen. rewrite Hcount in Hlen.
    rewrite firstn_all2 by lia. now rewrite Hlen.
Qed.

(** C4 at an input of one packet, with [entry_b] staged between
    [entry_a] and [entry_colon]. *)
Lemma packets_per_entry_witness :
  Forall valid_packet [plain_packet]
  /\ exists digits first others,
       ascii_decimal (length (TSWriter.data entry_b)) digits
       /\ length (first :: others)
          = (length digits + 1 + length (TSWriter.name entry_b) + 1
             + length (TSWriter.data entry_b) + 175) / 176
       /\ get_id first = awmk_file
       /\ forall out,
            TSWriter.process (Some (opened (stream_of [plain_packet]))) out
                             ([entry_a] ++ entry_b :: [entry_colon])
            = (o <- write_all ([plain_packet] ++ flat_map entry_packets [entry_a]
                                 ++ (first :: others)
                                 ++ flat_map entry_packets [entry_colon]) out ;;
               Returned (NONE, o)).
Proof.
  assert (H : Forall valid_packet [plain_packet]) by (repeat constructor).
  split; [exact H|].
  destruct (@packets_per_entry [plain_packet] [entry_a] entry_b [entry_colon] H)
    as (digits & first & others & Hd & _ & Hcount & _ & Hf & _ & _ & _ & Hp
        & _).
  exists digits, first, others.
  split; [exact Hd|]. split; [exact Hcount|]. split; [exact Hf | exact Hp].
Defined.

(** C2 — pass-through fidelity.  On a valid input transport stream (a
    sequence of 188-byte packets that each start with the sync byte) and
    any staged entries, [TSWriter::process] writes the packets of the
    input, unmodified and in order, and only then the packets of the
    entries, all of which are marked; on an output that has room for the
    input, the bytes written start with the bytes of the input and the
    bytes of the new packets follow them. *)
Theorem pass_through_fidelity pkts entries :
  Forall valid_packet pkts ->
  (forall out,
      TSWriter.process (Some (opened (stream_of pkts))) out entries
      = (o <- write_all (pkts ++ flat_map entry_packets entries) out ;;
         Returned (NONE, o)))
  /\ (forall f,
         length (stream_of pkts) <= room f ->
         exists f',
           TSWriter.process (Some (opened (stream_of pkts))) (Some f) entries
           = Returned (NONE, Some f')
           /\ content f'
              = content f ++ stream_of pkts
                  ++ firstn (room f - length (stream_of pkts))
                       (stream_of (flat_map entry_packets entries)))
  /\ Forall (fun p => get_id p <> unknown) (flat_map entry_packets entries).
Proof.
  intros Hv. split; [|split].
  - intros out. now apply process_valid.
  - intros f Hroom. rewrite process_valid, write_all_some by assumption.
    cbn [bind]. eexists. split; [reflexivity|]. cbn [content].
    rewrite stream_of_app, firstn_app, firstn_all2 by assumption.
    reflexivity.
  - apply Forall_flat_map. apply Forall_forall. intros e _.
    destruct (entry_packets_cons e) as (first & others & -> & Hf & Ho).
    constructor; [congruence|].
    eapply Forall_impl; [|exact Ho]. intros p ->. discriminate.
Qed.

(** C2 at an input of two packets, the second of which is itself a
    marked packet, and one staged entry. *)
Lemma pass_through_fidelity_witness :
  Forall valid_packet [plain_packet; start_packet_a]
  /\ length (stream_of [plain_packet; start_packet_a]) <= room (created 1000)
  /\ exists f',
       TSWriter.process
         (Some (opened (stream_of [plain_packet; start_packet_a])))
         (Some (created 1000)) [entry_b]
       = Returned (NONE, Some f')
       /\ content f'
          = content (created 1000)
              ++ stream_of [plain_packet; start_packet_a]
              ++ firstn (room (created 1000)
                         - length (stream_of [plain_packet; start_packet_a]))
                   (stream_of (flat_map entry_packets [entry_b])).
Proof.
  assert (H1 : Forall valid_packet [plain_packet; start_packet_a])
    by (repeat constructor).
  assert (H2 : length (stream_of [plain_packet; start_packet_a])
               <= room (created 1000))
    by (vm_compute; lia).
  split; [exact H1|]. split; [exact H2|].
  exact (proj1 (proj2 (@pass_through_fidelity
                         [plain_packet; start_packet_a] [entry_b] H1))
               (created 1000) H2).
Defined.

(** C1 — round trip, as the code has it.  For staged entries whose names
    hold no NUL byte and no line feed or carriage return, and whose data
    (of any length from 0 up to [INT_MAX]) are arbitrary bytes,
    [TSWriter::process] on an empty input stream and an output that
    accepts all the packets produces a stream from which [TSReader::load]
    recovers, through [entries()], the staged entries: same names, same
    bytes, same order. *)
Theorem round_trip entries r :
  Forall entry_ok entries ->
  188 * length (flat_map entry_packets entries) <= r ->
  exists out,
    TSWriter.process (Some (opened [])) (Some (created r)) entries
    = Returned (NONE, Some out)
    /\ TSReader.load (Some (opened (content out))) []
       = Returned (NONE, map recovered entries).
Proof.
  intros Hok Hroom.
  assert (Hv : Forall valid_packet (flat_map entry_packets entries)).
  { apply Forall_flat_map. apply Forall_forall. intros e _.
    apply entry_packets_valid. }
  change (@nil byte) with (stream_of []) at 1.
  rewrite process_valid by constructor.
  cbn [app]. unfold created. rewrite write_all_some. cbn [content room bind].
  eexists. split; [reflexivity|]. cbn [content app].
  rewrite firstn_all2 by (rewrite length_stream_of by assumption; lia).
  rewrite load_valid by assumption.
  destruct (run_entries (TSReader.init []) Hok) as (st' & -> & Hent).
  cbn [bind]. now rewrite Hent.
Qed.

(** C1 at three sample entries, one of them with colons in its name and
    no data. *)
Lemma round_trip_witness :
  Forall entry_ok [entry_a; entry_b; entry_colon]
  /\ 188 * length (flat_map entry_packets [entry_a; entry_b; entry_colon])
     <= 752
  /\ exists out,
       TSWriter.process (Some (opened [])) (Some (created 752))
                        [entry_a; entry_b; entry_colon]
       = Returned (NONE, Some out)
       /\ TSReader.load (Some (opened (content out))) []
          = Returned (NONE,
                      [recovered entry_a; recovered entry_b;
                       recovered entry_colon]).
Proof.
  assert (H1 : Forall entry_ok [entry_a; entry_b; entry_colon]).
  { repeat constructor; vm_compute; discriminate. }
  assert (H2 : 188 * length (flat_map entry_packets
                               [entry_a; entry_b; entry_colon]) <= 752).
  { vm_compute. apply le_n. }
  split; [exact H1|]. split; [exact H2|].
  exact (round_trip (entries := [entry_a; entry_b; entry_colon]) H1 H2).
Defined.

(** C1 fails as stated, on a name without NUL and without colon: the
    line feed in the name of [entry_lf] keeps the header from ever
    matching, and [load] recovers nothing. *)
Lemma round_trip_fails_on_line_feed :
  no_nul (TSWriter.name entry_lf)
  /\ ~ In char_colon (TSWriter.name entry_lf)
  /\ exists out,
       TSWriter.process (Some (opened [])) (Some (created 188)) [entry_lf]
       = Returned (NONE, Some out)
       /\ length (content out) = 188
       /\ TSReader.load (Some (opened (content out))) [] = Returned (NONE, [])
       /\ TSReader.load (Some (opened (content out))) []
          <> Returned (NONE, [recovered entry_lf]).
Proof.
  split; [reflexivity|]. split.
  - cbn. intros [H|[H|[H|[]]]]; discriminate H.
  - eexists. split; [vm_compute; reflexivity|].
    split; [reflexivity|]. split; [vm_compute; reflexivity|].
    vm_compute. discriminate.
Qed.

(** C3 — write failures are not returned.  A packet write that the sink
    cuts short reports [short_write], yet [TSWriter::process] returns no
    error: in the pass-through phase (the packet of the input is lost on a
    full sink) and in the append phase (the packet of [entry_a] is cut
    after 100 bytes); on a valid input stream it returns no error
    whatever the sink accepts, and on no input at all does it return the
    short-write error. *)
Theorem write_failure_not_returned :
  write_to plain_packet (created 0) = (short_write, created 0)
  /\ TSWriter.process (Some (opened (m_data plain_packet)))
                      (Some (created 0)) []
     = Returned (NONE, Some (created 0))
  /\ TSWriter.process (Some (opened [])) (Some (created 100)) [entry_a]
     = Returned (NONE,
                 Some (mkOFILE (firstn 100 (stream_of (entry_packets entry_a)))
                               0))
  /\ (forall pkts entries f,
         Forall valid_packet pkts ->
         exists f',
           TSWriter.process (Some (opened (stream_of pkts))) (Some f) entries
           = Returned (NONE, Some f'))
  /\ (forall infile out entries e o,
         TSWriter.process infile out entries = Returned (e, o) ->
         e <> short_write).
Proof.
  split; [reflexivity|]. split; [vm_compute; reflexivity|].
  split; [vm_compute; reflexivity|]. split.
  - intros pkts entries f Hv.
    rewrite process_valid, write_all_some by assumption.
    cbn [bind]. eexists. reflexivity.
  - intros infile out entries e o H.
    apply process_error_kinds in H as [-> | [-> | ->]]; discriminate.
Qed.

Lemma stops_with_load fuel tail e st :
  stops_with tail e ->
  TSReader.load_loop (S fuel) (opened tail) NONE st = Returned (e, st).
Proof.
  intros [[H ->]|(H & Hsync & ->)].
  - now apply load_loop_short.
  - rewrite <- (firstn_skipn 188 tail). apply load_loop_bad_sync.
    + rewrite length_firstn. lia.
    + destruct tail; [simpl in H; lia | exact Hsync].
Qed.

Lemma stops_with_copy fuel tail e out :
  stops_with tail e ->
  TSWriter.copy_loop (S fuel) (opened tail) out = Returned (e, out).
Proof.
  intros [[H ->]|(H & Hsync & ->)].
  - now apply copy_loop_short.
  - rewrite <- (firstn_skipn 188 tail). apply copy_loop_bad_sync.
    + rewrite length_firstn. lia.
    + destruct tail; [simpl in H; lia | exact Hsync].
Qed.

Lemma stops_with_is_error tail e : stops_with tail e -> is_error e = true.
Proof. intros [[_ ->]|(_ & _ & ->)]; reflexivity. Qed.

(** C5 — packet read contract.  [TSPacket::read] takes 188 bytes off the
    stream (or what is left of it) and has four outcomes: nothing left,
    not ok and the error variable untouched; 1 to 187 bytes left, not ok
    with the short-read error; 188 bytes that start with the sync byte,
    ok, the packet holding them; 188 bytes that start otherwise, not ok
    with the sync error.  On a stream of valid packets followed by a short
    or badly synchronised rest, [TSReader::load] and [TSWriter::process]
    return that error once the valid packets before it are dealt with,
    and with nothing done after them. *)
Theorem packet_read_contract :
  (forall p file err,
      let '(ok, p', file', err') := read p file err in
      rest file' = skipn 188 (rest file)
      /\ (rest file = [] -> ok = false /\ err' = err)
      /\ (0 < length (rest file) < 188 -> ok = false /\ err' = short_read)
      /\ (188 <= length (rest file) -> nth 0 (rest file) x00 = char_G ->
          ok = true /\ err' = err
          /\ firstn 188 (m_data p') = firstn 188 (rest file))
      /\ (188 <= length (rest file) -> nth 0 (rest file) x00 <> char_G ->
          ok = false /\ err' = bad_sync))
  /\ (forall pkts tail e es,
         Forall valid_packet pkts -> stops_with tail e ->
         TSReader.load (Some (opened (stream_of pkts ++ tail))) es
         = (st <- run_packets (TSReader.init es) pkts ;;
            Returned (e, TSReader.m_entries st)))
  /\ (forall pkts tail e entries out,
         Forall valid_packet pkts -> stops_with tail e ->
         TSWriter.process (Some (opened (stream_of pkts ++ tail))) out entries
         = (o <- write_all pkts out ;; Returned (e, o))).
Proof.
  split; [|split].
  - intros p file err. unfold read, fread.
    assert (Hnth : 0 < length (rest file) ->
                   nth 0 (overwrite (firstn packet_size (rest file)) (m_data p))
                       x00
                   = nth 0 (rest file) x00).
    { unfold overwrite. destruct (rest file); [simpl; lia | reflexivity]. }
    assert (Hnil : rest file = [] -> length (rest file) = 0)
      by (now intros ->).
    assert (Hfirst : 188 <= length (rest file) ->
                     firstn 188
                       (overwrite (firstn packet_size (rest file)) (m_data p))
                     = firstn 188 (rest file)).
    { intros H. unfold overwrite. apply firstn_app_exact.
      rewrite length_firstn. unfold packet_size. lia. }
    rewrite length_firstn. unfold packet_size in *.
    destruct (Nat.eqb_spec (Nat.min 188 (length (rest file))) 0) as [E0|E0];
      [|destruct (Nat.eqb_spec (Nat.min 188 (length (rest file))) 188)
          as [E1|E1];
        [cbn [m_data]; rewrite Hnth by lia;
         destruct (Byte.eqb (nth 0 (rest file) x00) char_G) eqn:Es;
         [apply Byte.byte_dec_bl in Es | apply Byte.eqb_false in Es]|]];
      cbn [rest m_data]; (split; [reflexivity|]);
      repeat split; auto; try (intros; lia); try (intros; congruence);
      try (intros Hn; apply Hnil in Hn; lia);
      match goal with
      | Hn : rest file = [] |- _ => apply Hnil in Hn; lia
      end.
  - intros pkts tail e es Hv Hstop.
    unfold TSReader.load, TSReader.loop_fuel. cbn [rest opened].
    rewrite loop_fuel_split, load_loop_prefix by assumption.
    destruct (run_packets (TSReader.init es) pkts); cbn [bind];
      [|reflexivity|reflexivity].
    now rewrite (stops_with_load _ _ Hstop).
  - intros pkts tail e entries out Hv Hstop.
    unfold TSWriter.process, TSWriter.loop_fuel. cbn [rest opened].
    rewrite loop_fuel_split, copy_loop_prefix by assumption.
    destruct (write_all pkts out); cbn [bind]; [|reflexivity|reflexivity].
    rewrite (stops_with_copy _ _ Hstop). cbn [bind].
    now rewrite (stops_with_is_error Hstop).
Qed.

(** C5 at a stream of one valid packet followed by a single byte. *)
Lemma packet_read_contract_witness :
  Forall valid_packet [plain_packet]
  /\ stops_with [x00] short_read
  /\ TSReader.load (Some (opened (stream_of [plain_packet] ++ [x00]))) []
     = Returned (short_read, [])
  /\ TSWriter.process (Some (opened (stream_of [plain_packet] ++ [x00])))
                      (Some (created 1000)) [entry_a]
     = Returned (short_read, Some (mkOFILE (m_data plain_packet) 812)).
Proof.
  assert (H1 : Forall valid_packet [plain_packet])
    by (repeat constructor).
  assert (H2 : stops_with [x00] short_read)
    by (left; split; [simpl; lia | reflexivity]).
  split; [exact H1|]. split; [exact H2|]. split.
  - rewrite (proj1 (proj2 packet_read_contract) _ _ _ [] H1 H2).
    reflexivity.
  - rewrite (proj2 (proj2 packet_read_contract) _ _ _ [entry_a]
               (Some (created 1000)) H1 H2).
    reflexivity.
Defined.

(** ** The reader's state machine *)

Lemma parse_header_from_header h1 h2 data todo : forall i,
  match TSReader.parse_header_from h1 data i todo,
        TSReader.parse_header_from h2 data i todo with
  | Returned (ok1, r1, d1), Returned (ok2, r2, d2) =>
      ok1 = ok2 /\ d1 = d2
      /\ (if ok1 then r1 = r2 else r1 = h1 /\ r2 = h2)
  | Undefined, Undefined => True
  | _, _ => False
  end.
Proof.
  induction todo as [|c todo IH]; intros i; cbn [TSReader.parse_header_from].
  - auto.
  - destruct (Byte.eqb c NUL); [|apply IH].
    destruct (TSReader.regex_match _) as [[sm1 sm2]|]; [|apply IH].
    unfold TSReader.atoi. destruct (_ <=? _)%N; cbn [bind]; auto.
Qed.

Lemma same_progress_refl a : same_progress a a.
Proof. repeat split. Qed.

Lemma same_outcome_refl x : same_outcome x x.
Proof. destruct x; cbn; auto using same_progress_refl. Qed.

Lemma absorb_same a b x :
  same_progress a b -> same_outcome (absorb a x) (absorb b x).
Proof.
  destruct a as [es s h v], b as [es' s' h' v'].
  intros (Hes & Hs & Hv & Hh); cbn in Hes, Hs, Hv, Hh. subst es' s' v'.
  unfold absorb.
  reader_fields.
  destruct v.
  - rewrite <- (Hh eq_refl). apply same_outcome_refl.
  - unfold TSReader.parse_header.
    pose proof (parse_header_from_header h h' (s ++ x) (s ++ x) 0) as H.
    destruct (TSReader.parse_header_from h _ 0 _) as [[[ok1 r1] d1]| |],
             (TSReader.parse_header_from h' _ 0 _) as [[[ok2 r2] d2]| |];
      cbn [bind]; try contradiction; try exact I.
    destruct H as (<- & <- & Hr). destruct ok1.
    + subst r2. apply same_outcome_refl.
    + cbn [andb same_outcome]. repeat split. discriminate.
Qed.

Lemma process_packet_same a b p :
  same_progress a b ->
  same_outcome (TSReader.process_packet a p) (TSReader.process_packet b p).
Proof.
  intros H. destruct (get_id p) eqn:E.
  - rewrite !process_packet_file by assumption. apply absorb_same.
    destruct H as (Hes & _). unfold restart. repeat split; cbn; auto.
    discriminate.
  - rewrite !process_packet_data by assumption. now apply absorb_same.
  - rewrite !process_packet_unknown by assumption. exact H.
Qed.

Lemma run_packets_same pkts : forall a b,
  same_progress a b ->
  same_outcome (run_packets a pkts) (run_packets b pkts).
Proof.
  induction pkts as [|p pkts IH]; intros a b H; [exact H|].
  cbn [run_packets].
  pose proof (process_packet_same p H) as Hp.
  destruct (TSReader.process_packet a p), (TSReader.process_packet b p);
    cbn [bind]; try contradiction; try exact I.
  now apply IH.
Qed.

(** C6 — start-marker reset.  Whatever the reader's state, a packet with
    the start marker makes [TSReader::load] parse and complete from the
    payload region of that packet alone (176 bytes for a packet of 188):
    the buffer and the header known before play no part, and the entries
    recovered from there on are the same from any two states that hold
    the same recovered entries, so nothing of an unterminated entry is
    ever emitted. *)
Theorem start_marker_resets st p :
  get_id p = awmk_file ->
  TSReader.process_packet st p
  = ('(ok, h, d) <- TSReader.parse_header (TSReader.header st) (payload p) ;;
     if ok && (TSReader.data_size h <=? N.of_nat (length d))%N
     then Returned
            (TSReader.mkState
               (TSReader.m_entries st
                  ++ [TSReader.mkEntry (TSReader.filename h)
                        (firstn (N.to_nat (TSReader.data_size h)) d)])
               [] h false)
     else Returned (TSReader.mkState (TSReader.m_entries st) d h ok))
  /\ (size p = 188 -> length (payload p) = 176)
  /\ (forall st' pkts,
         TSReader.m_entries st' = TSReader.m_entries st ->
         same_outcome (run_packets st (p :: pkts))
                      (run_packets st' (p :: pkts))).
Proof.
  intros E. split; [|split].
  - rewrite process_packet_file by assumption. reflexivity.
  - unfold size, payload. intros H. rewrite length_skipn, H. reflexivity.
  - intros st' pkts Hes. cbn [run_packets].
    rewrite !process_packet_file by assumption.
    assert (Hsame : same_progress (restart st) (restart st'))
      by (unfold restart; repeat split; cbn; auto; discriminate).
    pose proof (absorb_same (payload p) Hsame) as Hp.
    destruct (absorb (restart st) _), (absorb (restart st') _);
      cbn [bind]; try contradiction; try exact I.
    now apply run_packets_same.
Qed.

(** C6 at a reader in the middle of an entry that meets the start packet
    of [entry_a]. *)
Lemma start_marker_resets_witness :
  get_id start_packet_a = awmk_file
  /\ TSReader.process_packet busy_state start_packet_a
     = Returned (TSReader.mkState [recovered entry_a] []
                                  (header_of entry_a) false)
  /\ same_outcome (run_packets busy_state [start_packet_a])
                  (run_packets idle_state [start_packet_a]).
Proof.
  assert (H : get_id start_packet_a = awmk_file) by reflexivity.
  split; [exact H|]. split.
  - rewrite (proj1 (@start_marker_resets busy_state start_packet_a H)).
    vm_compute. reflexivity.
  - apply (proj2 (proj2 (@start_marker_resets busy_state start_packet_a H))).
    reflexivity.
Defined.

(** C7, as the code has it — a continuation packet met while no
    accumulation is in progress (empty buffer, no header known) is dealt
    with exactly as a start packet with the same payload would be: the
    payload becomes the accumulation buffer and a header is looked for in
    it.  When the payload holds no NUL byte, no entry is emitted at that
    packet and the payload stays in the buffer. *)
Theorem orphan_continuation_accumulates st p :
  get_id p = awmk_data ->
  TSReader.awmk_stream st = [] -> TSReader.header_valid st = false ->
  (forall q, get_id q = awmk_file -> payload q = payload p ->
             TSReader.process_packet st p = TSReader.process_packet st q)
  /\ (no_nul (payload p) ->
      TSReader.process_packet st p
      = Returned (TSReader.mkState (TSReader.m_entries st) (payload p)
                                   (TSReader.header st) false)).
Proof.
  intros E Hs Hv. rewrite process_packet_data by assumption.
  destruct st as [es s h v]. cbn in Hs, Hv. subst s v. split.
  - intros q Eq Hq. rewrite process_packet_file by assumption.
    now rewrite Hq.
  - intros Hnn. cbn [TSReader.m_entries TSReader.header].
    now apply absorb_unparsed.
Qed.

(** C7 at an idle reader and a continuation packet without NUL. *)
Lemma orphan_continuation_accumulates_witness :
  get_id (filler_packet awmk_data) = awmk_data
  /\ TSReader.awmk_stream idle_state = []
  /\ TSReader.header_valid idle_state = false
  /\ TSReader.process_packet idle_state (filler_packet awmk_data)
     = TSReader.process_packet idle_state (filler_packet awmk_file)
  /\ TSReader.process_packet idle_state (filler_packet awmk_data)
     = Returned (TSReader.mkState [] (repeat x2e 176)
                                  (TSReader.mkHeader [] 0) false).
Proof.
  pose proof (@orphan_continuation_accumulates idle_state
                (filler_packet awmk_data) eq_refl eq_refl eq_refl)
    as [H1 H2].
  split; [reflexivity|]. split; [reflexivity|]. split; [reflexivity|].
  split.
  - apply H1; reflexivity.
  - apply H2. reflexivity.
Defined.

(** C7 fails as stated: the payload of a continuation packet
    that no start packet precedes is not discarded; here it is recovered
    as an entry named x with the bytes abc. *)
Lemma orphan_continuation_is_recovered :
  get_id orphan_packet = awmk_data
  /\ TSReader.process_packet idle_state orphan_packet
     = Returned (TSReader.mkState
                   [TSReader.mkEntry (bytes_of "x") (bytes_of "abc")] []
                   (TSReader.mkHeader (bytes_of "x") 3) false)
  /\ TSReader.load (Some (opened (m_data orphan_packet))) []
     = Returned (NONE, [TSReader.mkEntry (bytes_of "x") (bytes_of "abc")]).
Proof. repeat split; vm_compute; reflexivity. Qed.

(** C8 — malformed header text.  For a buffer without NUL byte, and for
    a buffer whose bytes before the first NUL do not match the header
    pattern, [TSReader::parse_header] returns false and leaves its
    arguments as they were; a marked packet after which the buffer is so
    only lengthens the buffer, no header being known, so that the next
    marked packet has the header parsed again, on the buffer lengthened
    by its payload; on a stream of valid packets [TSReader::load]
    returns no error, whatever the packets hold; and on any stream the
    only errors it returns are those of [TSPacket::read]. *)
Theorem malformed_header_tolerated :
  (forall h data,
      no_nul data \/ TSReader.regex_match (TSReader.c_str data) = None ->
      TSReader.parse_header h data = Returned (false, h, data))
  /\ (forall st p,
         get_id p <> unknown ->
         let st0 := start_state (get_id p) st in
         let buf := TSReader.awmk_stream st0 ++ payload p in
         TSReader.header_valid st0 = false ->
         no_nul buf \/ TSReader.regex_match (TSReader.c_str buf) = None ->
         TSReader.process_packet st p
         = Returned (TSReader.mkState (TSReader.m_entries st) buf
                                      (TSReader.header st) false))
  /\ (forall st p,
         get_id p = awmk_data -> TSReader.header_valid st = false ->
         TSReader.process_packet st p
         = ('(ok, h, d) <-
              TSReader.parse_header (TSReader.header st)
                                    (TSReader.awmk_stream st ++ payload p) ;;
            if ok && (TSReader.data_size h <=? N.of_nat (length d))%N
            then Returned
                   (TSReader.mkState
                      (TSReader.m_entries st
                         ++ [TSReader.mkEntry (TSReader.filename h)
                               (firstn (N.to_nat (TSReader.data_size h)) d)])
                      [] h false)
            else Returned (TSReader.mkState (TSReader.m_entries st) d h ok)))
  /\ (forall pkts es e es',
         Forall valid_packet pkts ->
         TSReader.load (Some (opened (stream_of pkts))) es = Returned (e, es') ->
         e = NONE)
  /\ (forall infile es e es',
         TSReader.load infile es = Returned (e, es') -> read_error e).
Proof.
  assert (Hparse : forall h data,
             no_nul data \/ TSReader.regex_match (TSReader.c_str data) = None ->
             TSReader.parse_header h data = Returned (false, h, data)).
  { intros h data [H|H]; unfold TSReader.parse_header.
    - now apply parse_header_from_no_nul.
    - now apply parse_header_from_mismatch. }
  split; [exact Hparse|]. split; [|split; [|split]].
  - intros st p Hid st0 buf Hv Hbad.
    assert (E : TSReader.process_packet st p = absorb st0 (payload p)).
    { unfold st0. destruct (get_id p) eqn:E; [| |congruence].
      - now apply process_packet_file.
      - now apply process_packet_data. }
    rewrite E. unfold absorb. rewrite Hv. fold buf.
    rewrite Hparse by assumption. cbn [bind andb].
    unfold st0. destruct (get_id p); reflexivity.
  - intros st p E Hv. rewrite process_packet_data by assumption.
    unfold absorb. now rewrite Hv.
  - intros pkts es e es' Hv. rewrite load_valid by assumption.
    destruct (run_packets _ pkts); cbn [bind]; congruence.
  - intros infile es e es'. apply load_error_kinds.
Qed.

(** C9 — a stream that cannot be opened is not checked for.  With an
    output that could not be opened, an empty input and nothing staged,
    [TSWriter::process] returns no error; with an input that could not be
    opened, [process] and [TSReader::load] call [feof] on the null stream
    and return nothing defined.  [TSWriter::append_file] does check what
    [fopen] returned. *)
Theorem unopened_stream_not_reported :
  TSWriter.process (Some (opened [])) None [] = Returned (NONE, None)
  /\ (forall out entries, TSWriter.process None out entries = Undefined)
  /\ (forall es, TSReader.load None es = Undefined)
  /\ (forall entries name,
         TSWriter.append_file entries name None = (unable_to_open, entries)).
Proof. repeat split. Qed.

(** C10 — an empty length field is accepted.  On a buffer that starts
    with a colon, a name and a NUL, [TSReader::parse_header] succeeds: the
    digit group matches no character, [atoi] of the empty string is 0,
    and the header is taken off the buffer; a start packet with such a
    payload completes at once an entry of that name with no data. *)
Theorem empty_length_accepted h nm r :
  name_ok nm ->
  TSReader.parse_header h (char_colon :: nm ++ NUL :: r)
  = Returned (true, TSReader.mkHeader nm 0, r)
  /\ (forall st p,
         get_id p = awmk_file -> payload p = char_colon :: nm ++ NUL :: r ->
         TSReader.process_packet st p
         = Returned (TSReader.mkState
                       (TSReader.m_entries st ++ [TSReader.mkEntry nm []])
                       [] (TSReader.mkHeader nm 0) false)).
Proof.
  intros [Hnn Hdot].
  assert (Hparse : forall h',
             TSReader.parse_header h' (char_colon :: nm ++ NUL :: r)
             = Returned (true, TSReader.mkHeader nm 0, r)).
  { intros h'.
    change (char_colon :: nm ++ NUL :: r)
      with ((char_colon :: nm) ++ NUL :: r).
    rewrite parse_header_match with (sm1 := []) (sm2 := nm).
    - reflexivity.
    - unfold no_nul in *. cbn [forallb]. now rewrite Hnn.
    - apply regex_match_complete. repeat split. exact Hdot. }
  split; [apply Hparse|].
  intros st p E Hp. rewrite process_packet_file by assumption.
  unfold absorb, restart.
  cbn [TSReader.header_valid TSReader.header TSReader.awmk_stream
       TSReader.m_entries app].
  rewrite Hp, Hparse.
  cbn [bind andb TSReader.data_size TSReader.filename].
  replace (0 <=? N.of_nat (length r))%N with true
    by (symmetry; apply N.leb_le; lia).
  reflexivity.
Qed.

(** C10 at the name [name]. *)
Lemma empty_length_accepted_witness :
  name_ok (bytes_of "name")
  /\ TSReader.parse_header (TSReader.mkHeader [] 0)
       (char_colon :: bytes_of "name" ++ NUL :: bytes_of "rest")
     = Returned (true, TSReader.mkHeader (bytes_of "name") 0, bytes_of "rest").
Proof.
  assert (H : name_ok (bytes_of "name")) by (split; reflexivity).
  split; [exact H|].
  exact (proj1 (@empty_length_accepted (TSReader.mkHeader [] 0)
                                       (bytes_of "name") (bytes_of "rest") H)).
Defined.

(** * Further properties *)

(** ** Packets *)

Lemma byte_eqb_eq a b : Byte.eqb a b = true <-> a = b.
Proof. split; [apply Byte.byte_dec_bl | apply Byte.byte_dec_lb]. Qed.

Lemma get_id_firstn p q :
  firstn 12 (m_data p) = firstn 12 (m_data q) -> get_id p = get_id q.
Proof.
  intros E.
  assert (H : forall i, i < 12 -> nth i (m_data p) x00 = nth i (m_data q) x00).
  { intros i Hi.
    pose proof (nth_firstn 12 (m_data p) i x00) as Hp.
    pose proof (nth_firstn 12 (m_data q) i x00) as Hq.
    apply Nat.ltb_lt in Hi. rewrite Hi in Hp, Hq.
    now rewrite <- Hp, <- Hq, E. }
  unfold get_id, id_eq. cbn [Nat.add].
  now rewrite !H by lia.
Qed.

Lemma set_byte_size p n v :
  n < size p -> size (set_byte p n v) = size p.
Proof.
  unfold size, set_byte. cbn [m_data]. intros H.
  rewrite length_app, length_firstn. cbn [length]. rewrite length_skipn. lia.
Qed.

Lemma set_byte_marker p n v :
  12 <= n < size p ->
  firstn 12 (m_data (set_byte p n v)) = firstn 12 (m_data p).
Proof.
  unfold size, set_byte. cbn [m_data]. intros H.
  rewrite firstn_app, length_firstn.
  replace (12 - Nat.min n (length (m_data p))) with 0 by lia.
  rewrite firstn_O, app_nil_r, firstn_firstn.
  now rewrite Nat.min_l by lia.
Qed.

(** X1 — stores in the payload region.  A packet cleared as [id] and then
    filled through [operator[]] at offsets from 12 to 187, in any number
    and order, is still a packet of 188 bytes that [get_id] classifies as
    [id]. *)
Theorem payload_stores_keep_marker id writes :
  Forall (fun w => 12 <= fst w < 188) writes ->
  get_id (store_all (clear id) writes) = id
  /\ size (store_all (clear id) writes) = 188.
Proof.
  intros Hw.
  assert (H : forall p,
             size p = 188 ->
             get_id (store_all p writes) = get_id p
             /\ size (store_all p writes) = 188).
  { induction Hw as [|[n v] writes Hn _ IH]; intros p Hp; [auto|].
    change (store_all p ((n, v) :: writes))
      with (store_all (set_byte p n v) writes).
    cbn [fst] in Hn.
    destruct (IH (set_byte p n v)) as [Hid Hsz].
    - rewrite set_byte_size; lia.
    - split; [|exact Hsz]. rewrite Hid.
      apply get_id_firstn, set_byte_marker. lia. }
  destruct (H (clear id)) as [Hid Hsz]; [now destruct id|].
  split; [|exact Hsz]. rewrite Hid. now destruct id.
Qed.

(** X1 at a start packet into which three bytes are stored, the last
    offset twice. *)
Lemma payload_stores_keep_marker_witness :
  Forall (fun w => 12 <= fst w < 188) [(12, x41); (187, x42); (187, x47)]
  /\ get_id (store_all (clear awmk_file) [(12, x41); (187, x42); (187, x47)])
     = awmk_file
  /\ size (store_all (clear awmk_file) [(12, x41); (187, x42); (187, x47)])
     = 188.
Proof.
  assert (H : Forall (fun w => 12 <= fst w < 188)
                     [(12, x41); (187, x42); (187, x47)])
    by (repeat constructor; cbn; lia).
  split; [exact H|].
  exact (@payload_stores_keep_marker awmk_file _ H).
Defined.

Lemma id_eq_spec p offset a b c d :
  id_eq p offset a b c d = true
  <-> nth offset (m_data p) x00 = a /\ nth (offset + 1) (m_data p) x00 = b
      /\ nth (offset + 2) (m_data p) x00 = c
      /\ nth (offset + 3) (m_data p) x00 = d.
Proof.
  unfold id_eq. rewrite !andb_true_iff, !byte_eqb_eq. tauto.
Qed.

Lemma get_id_marker_bytes id :
  id <> unknown -> get_id (mkTSPacket (get_id_bytes id)) = id.
Proof. destruct id; [reflexivity | reflexivity | congruence]. Qed.

(** Twelve known leading bytes determine the front of a list. *)
Ltac peel_byte l H :=
  let b := fresh "b" in
  destruct l as [|b l]; [cbn in H; lia|]; cbn [length] in H.

Lemma marker_bytes_of_id p id :
  id <> unknown -> get_id p = id ->
  firstn 12 (m_data p) = get_id_bytes id.
Proof.
  intros Hid E. unfold get_id in E.
  destruct (id_eq p 0 x47 x1f xff x10 && id_eq p 4 x41 x57 x4d x4b) eqn:E1;
    [|congruence].
  apply andb_true_iff in E1 as [E0 E4].
  apply id_eq_spec in E0 as (H0 & H1 & H2 & H3).
  apply id_eq_spec in E4 as (H4 & H5 & H6 & H7).
  assert (E8 : exists a b c d,
             nth 8 (m_data p) x00 = a /\ nth 9 (m_data p) x00 = b
             /\ nth 10 (m_data p) x00 = c /\ nth 11 (m_data p) x00 = d
             /\ get_id_bytes id
                = [x47; x1f; xff; x10; x41; x57; x4d; x4b; a; b; c; d]
             /\ d <> x00).
  { destruct (id_eq p 8 x66 x69 x6c x65) eqn:Ef.
    - apply id_eq_spec in Ef as (? & ? & ? & ?). subst id.
      exists x66, x69, x6c, x65. repeat split; auto. discriminate.
    - destruct (id_eq p 8 x64 x61 x74 x61) eqn:Ed; [|congruence].
      apply id_eq_spec in Ed as (? & ? & ? & ?). subst id.
      exists x64, x61, x74, x61. repeat split; auto. discriminate. }
  destruct E8 as (a & b & c & d & H8 & H9 & H10 & H11 & -> & Hd).
  cbn [Nat.add] in *.
  assert (Hlen : 12 <= length (m_data p)).
  { destruct (Nat.le_gt_cases 12 (length (m_data p))) as [H|H]; [exact H|].
    rewrite nth_overflow in H11 by lia. congruence. }
  destruct p as [l]. cbn [m_data] in *.
  do 12 peel_byte l Hlen.
  cbn in H0, H1, H2, H3, H4, H5, H6, H7, H8, H9, H10, H11.
  subst. reflexivity.
Qed.

(** X2 — classification by the marker bytes.  [get_id] returns a marker
    kind exactly when the first twelve bytes of the packet are the bytes
    [clear] stamps for that kind; the other 176 bytes play no part. *)
Theorem marker_classifies p id :
  id <> unknown ->
  (get_id p = id <-> firstn 12 (m_data p) = get_id_bytes id).
Proof.
  intros Hid. split.
  - now apply marker_bytes_of_id.
  - intros E. transitivity (get_id (mkTSPacket (get_id_bytes id))).
    + apply get_id_firstn. cbn [m_data]. rewrite E.
      destruct id; reflexivity.
    + now apply get_id_marker_bytes.
Qed.

(** X2 at the continuation marker and a packet that carries it. *)
Lemma marker_classifies_witness :
  awmk_data <> unknown
  /\ (get_id orphan_packet = awmk_data
      <-> firstn 12 (m_data orphan_packet) = get_id_bytes awmk_data).
Proof.
  assert (H : awmk_data <> unknown) by discriminate.
  split; [exact H|].
  exact (@marker_classifies orphan_packet awmk_data H).
Defined.

Lemma write_to_fits p f :
  size p <= room f ->
  write_to p f = (NONE, mkOFILE (content f ++ m_data p) (room f - size p)).
Proof.
  unfold write_to, fwrite, size. intros H.
  rewrite Nat.min_l by assumption. rewrite Nat.eqb_refl, firstn_all.
  reflexivity.
Qed.

(** X4 — a packet written is the packet read.  A valid packet written
    to a new file with room for it is what [TSPacket::read] gets back
    from that file, with nothing left to read and no error set. *)
Theorem write_then_read p r :
  valid_packet p -> 188 <= r ->
  fst (write_to p (created r)) = NONE
  /\ read fresh_packet (opened (content (snd (write_to p (created r))))) NONE
     = (true, p, opened [], NONE).
Proof.
  intros Hv Hr. pose proof Hv as [Hlen _].
  rewrite write_to_fits by (unfold size, created; cbn [room]; lia).
  cbn [fst snd content created app]. split; [reflexivity|].
  rewrite <- (app_nil_r (m_data p)) at 1. now apply read_valid.
Qed.

(** X4 at a packet of an ordinary stream and a file with room for
    three. *)
Lemma write_then_read_witness :
  valid_packet plain_packet /\ 188 <= 564
  /\ fst (write_to plain_packet (created 564)) = NONE
  /\ read fresh_packet
          (opened (content (snd (write_to plain_packet (created 564))))) NONE
     = (true, plain_packet, opened [], NONE).
Proof.
  assert (H1 : valid_packet plain_packet) by (split; reflexivity).
  assert (H2 : 188 <= 564) by lia.
  split; [exact H1|]. split; [exact H2|].
  exact (@write_then_read plain_packet 564 H1 H2).
Defined.

(** ** Streams that are not whole *)

(** Every byte sequence is a run of valid packets followed by nothing, by
    fewer than 188 bytes, or by bytes that do not start with the sync
    byte. *)
Lemma stream_decompose n : forall bs,
  length bs <= n ->
  exists pkts tail,
    bs = stream_of pkts ++ tail
    /\ Forall valid_packet pkts
    /\ (tail = [] \/ exists e, stops_with tail e).
Proof.
  induction n as [|n IH]; intros bs Hn.
  - destruct bs; [|simpl in Hn; lia]. exists [], []. auto.
  - destruct (Nat.eq_dec (length bs) 0) as [E0|E0].
    { destruct bs; [|discriminate]. exists [], []. auto. }
    destruct (Nat.lt_ge_cases (length bs) 188) as [Hshort|Hlong].
    { exists [], bs. repeat split; auto. right. exists short_read.
      left. split; [lia | reflexivity]. }
    destruct (Byte.byte_eq_dec (nth 0 bs x00) char_G) as [Hs|Hs].
    + destruct (IH (skipn 188 bs)) as (pkts & tail & E & Hv & Ht);
        [rewrite length_skipn; lia|].
      exists (mkTSPacket (firstn 188 bs) :: pkts), tail.
      split; [|split; [|exact Ht]].
      * unfold stream_of in *. cbn [map concat m_data].
        rewrite <- app_assoc, <- E. symmetry. apply firstn_skipn.
      * constructor; [|exact Hv]. split; cbn [m_data].
        -- rewrite length_firstn. lia.
        -- destruct bs; [simpl in E0; lia | exact Hs].
    + exists [], bs. repeat split; auto. right. exists bad_sync.
      right. auto.
Qed.

Lemma load_stops pkts tail e es :
  Forall valid_packet pkts -> stops_with tail e ->
  TSReader.load (Some (opened (stream_of pkts ++ tail))) es
  = (st <- run_packets (TSReader.init es) pkts ;;
     Returned (e, TSReader.m_entries st)).
Proof.
  intros Hv Hstop.
  unfold TSReader.load, TSReader.loop_fuel. cbn [rest opened].
  rewrite loop_fuel_split, load_loop_prefix by assumption.
  destruct (run_packets (TSReader.init es) pkts); cbn [bind];
    [|reflexivity|reflexivity].
  now rewrite (stops_with_load _ _ Hstop).
Qed.

Lemma process_stops pkts tail e entries out :
  Forall valid_packet pkts -> stops_with tail e ->
  TSWriter.process (Some (opened (stream_of pkts ++ tail))) out entries
  = (o <- write_all pkts out ;; Returned (e, o)).
Proof.
  intros Hv Hstop.
  unfold TSWriter.process, TSWriter.loop_fuel. cbn [rest opened].
  rewrite loop_fuel_split, copy_loop_prefix by assumption.
  destruct (write_all pkts out); cbn [bind]; [|reflexivity|reflexivity].
  rewrite (stops_with_copy _ _ Hstop). cbn [bind].
  now rewrite (stops_with_is_error Hstop).
Qed.

(** X5 — when [load] succeeds.  On a newly opened file, whenever
    [TSReader::load] returns, it returns no error exactly when the file is
    a whole number of 188-byte packets that each start with the sync
    byte. *)
Theorem load_succeeds_iff_whole bs es e es' :
  TSReader.load (Some (opened bs)) es = Returned (e, es') ->
  (e = NONE <-> exists pkts, Forall valid_packet pkts /\ bs = stream_of pkts).
Proof.
  intros H. split.
  - intros ->.
    destruct (@stream_decompose (length bs) bs (le_n _))
      as (pkts & tail & E & Hv & [->|[e Hstop]]).
    + exists pkts. now rewrite app_nil_r in E.
    + subst bs. rewrite (load_stops es Hv Hstop) in H.
      destruct (run_packets _ pkts); cbn [bind] in H; try discriminate.
      injection H as He _. subst e.
      apply stops_with_is_error in Hstop. discriminate.
  - intros (pkts & Hv & ->). rewrite load_valid in H by assumption.
    destruct (run_packets _ pkts); cbn [bind] in H; congruence.
Qed.

(** X5 at a file of one packet and one byte more. *)
Lemma load_succeeds_iff_whole_witness :
  TSReader.load (Some (opened (m_data plain_packet ++ [x00]))) []
  = Returned (short_read, [])
  /\ (short_read = NONE
      <-> exists pkts,
            Forall valid_packet pkts
            /\ m_data plain_packet ++ [x00] = stream_of pkts).
Proof.
  assert (H : TSReader.load (Some (opened (m_data plain_packet ++ [x00]))) []
              = Returned (short_read, []))
    by (vm_compute; reflexivity).
  split; [exact H|].
  exact (@load_succeeds_iff_whole _ _ _ _ H).
Defined.

(** X6 — when [process] succeeds.  On a newly opened input, whenever
    [TSWriter::process] returns, it returns no error exactly when the
    input is a whole number of 188-byte packets that each start with the
    sync byte; what is staged and what the output accepts play no
    part. *)
Theorem process_succeeds_iff_whole bs out entries e o :
  TSWriter.process (Some (opened bs)) out entries = Returned (e, o) ->
  (e = NONE <-> exists pkts, Forall valid_packet pkts /\ bs = stream_of pkts).
Proof.
  intros H. split.
  - intros ->.
    destruct (@stream_decompose (length bs) bs (le_n _))
      as (pkts & tail & E & Hv & [->|[e Hstop]]).
    + exists pkts. now rewrite app_nil_r in E.
    + subst bs. rewrite (process_stops entries out Hv Hstop) in H.
      destruct (write_all pkts out); cbn [bind] in H; try discriminate.
      injection H as He _. subst e.
      apply stops_with_is_error in Hstop. discriminate.
  - intros (pkts & Hv & ->). rewrite process_valid in H by assumption.
    destruct (write_all _ out); cbn [bind] in H; congruence.
Qed.

(** X6 at an input whose second packet has lost its sync byte, and a
    sink without room. *)
Lemma process_succeeds_iff_whole_witness :
  TSWriter.process
    (Some (opened (m_data plain_packet ++ repeat x00 188)))
    (Some (created 0)) [entry_a]
  = Returned (bad_sync, Some (created 0))
  /\ (bad_sync = NONE
      <-> exists pkts,
            Forall valid_packet pkts
            /\ m_data plain_packet ++ repeat x00 188 = stream_of pkts).
Proof.
  assert (H : TSWriter.process
                (Some (opened (m_data plain_packet ++ repeat x00 188)))
                (Some (created 0)) [entry_a]
              = Returned (bad_sync, Some (created 0)))
    by (vm_compute; reflexivity).
  split; [exact H|].
  exact (@process_succeeds_iff_whole _ _ _ _ _ H).
Defined.

(** ** Packets without marker *)

Lemma marked_false p : marked p = false -> get_id p = unknown.
Proof. unfold marked. destruct (get_id p); [discriminate..|reflexivity]. Qed.

Lemma run_packets_filter pkts : forall st,
  run_packets st (filter marked pkts) = run_packets st pkts.
Proof.
  induction pkts as [|p pkts IH]; intros st; [reflexivity|].
  cbn [filter run_packets]. destruct (marked p) eqn:E.
  - cbn [run_packets].
    destruct (TSReader.process_packet st p); cbn [bind]; auto.
  - rewrite process_packet_unknown by (now apply marked_false).
    cbn [bind]. apply IH.
Qed.

Lemma Forall_filter {A} (P : A -> Prop) f (l : list A) :
  Forall P l -> Forall P (filter f l).
Proof.
  induction 1 as [|x l Hx _ IH]; [constructor|].
  cbn [filter]. destruct (f x); [constructor|]; assumption.
Qed.

(** X7 — packets without marker are not seen.  On a valid transport
    stream [TSReader::load] gives what it gives on the stream with every
    packet that carries no marker taken out: ordinary stream content,
    wherever it lies among the marked packets, changes nothing. *)
Theorem load_ignores_unmarked pkts es :
  Forall valid_packet pkts ->
  TSReader.load (Some (opened (stream_of pkts))) es
  = TSReader.load (Some (opened (stream_of (filter marked pkts)))) es.
Proof.
  intros Hv.
  rewrite !load_valid by (try apply Forall_filter; assumption).
  now rewrite run_packets_filter.
Qed.

(** X7 at an entry of two packets with ordinary packets before, between
    and after them. *)
Lemma load_ignores_unmarked_witness :
  Forall valid_packet
    (plain_packet :: firstn 1 (entry_packets entry_b)
       ++ plain_packet :: skipn 1 (entry_packets entry_b) ++ [plain_packet])
  /\ TSReader.load
       (Some (opened (stream_of
          (plain_packet :: firstn 1 (entry_packets entry_b)
             ++ plain_packet :: skipn 1 (entry_packets entry_b)
             ++ [plain_packet])))) []
     = Returned (NONE, [recovered entry_b]).
Proof.
  assert (H : Forall valid_packet
                (plain_packet :: firstn 1 (entry_packets entry_b)
                   ++ plain_packet :: skipn 1 (entry_packets entry_b)
                   ++ [plain_packet]))
    by (repeat constructor).
  split; [exact H|].
  rewrite (load_ignores_unmarked [] H). vm_compute. reflexivity.
Defined.

(** ** Entries recovered before *)

Lemma absorb_earlier es0 st x :
  absorb (with_earlier es0 st) x
  = outcome_map (with_earlier es0) (absorb st x).
Proof.
  unfold absorb, with_earlier. reader_fields.
  destruct (if TSReader.header_valid st
            then Returned (true, TSReader.header st, TSReader.awmk_stream st ++ x)
            else TSReader.parse_header (TSReader.header st)
                                       (TSReader.awmk_stream st ++ x))
    as [[[ok h] d]| |]; cbn [bind outcome_map]; try reflexivity.
  destruct (ok && _); cbn [outcome_map]; reader_fields;
    [rewrite app_assoc|]; reflexivity.
Qed.

Lemma process_packet_earlier es0 st p :
  TSReader.process_packet (with_earlier es0 st) p
  = outcome_map (with_earlier es0) (TSReader.process_packet st p).
Proof.
  destruct (get_id p) eqn:E.
  - rewrite !process_packet_file by assumption.
    exact (absorb_earlier es0 (restart st) (payload p)).
  - rewrite !process_packet_data by assumption. apply absorb_earlier.
  - now rewrite !process_packet_unknown by assumption.
Qed.

Lemma load_loop_earlier es0 fuel : forall infile err st,
  TSReader.load_loop fuel infile err (with_earlier es0 st)
  = outcome_map (fun r => (fst r, with_earlier es0 (snd r)))
                (TSReader.load_loop fuel infile err st).
Proof.
  induction fuel as [|fuel IH]; intros infile err st; [reflexivity|].
  cbn [TSReader.load_loop]. destruct (feof infile); [reflexivity|].
  destruct (read fresh_packet infile err) as [[[ok p] f] e].
  destruct ok; cbn [negb].
  - rewrite process_packet_earlier.
    destruct (TSReader.process_packet st p); cbn [bind outcome_map];
      [apply IH | reflexivity | reflexivity].
  - destruct (is_error e); [reflexivity | apply IH].
Qed.

(** X8 — [load] adds to what the reader holds.  On a reader that
    already holds entries, [TSReader::load] returns the same error and
    recovers the same entries as on a new reader, and leaves them after
    the entries held before, which it keeps as they are, also when it
    returns an error. *)
Theorem load_appends infile es :
  TSReader.load infile es
  = outcome_map (fun r => (fst r, es ++ snd r)) (TSReader.load infile []).
Proof.
  destruct infile as [f|]; [|reflexivity]. unfold TSReader.load.
  replace (TSReader.init es) with (with_earlier es (TSReader.init []))
    by (unfold with_earlier, TSReader.init; cbn; now rewrite app_nil_r).
  rewrite load_loop_earlier.
  destruct (TSReader.load_loop _ f NONE (TSReader.init [])) as [[e st]| |];
    reflexivity.
Qed.

(** ** What [parse_header] accepts *)

Lemma first_nul_split data :
  no_nul data \/ exists pre r, data = pre ++ NUL :: r /\ no_nul pre.
Proof.
  induction data as [|c data IH]; [now left|].
  destruct (Byte.eqb c NUL) eqn:E.
  - apply Byte.byte_dec_bl in E. subst c. right. exists [], data. now split.
  - destruct IH as [IH|(pre & r & -> & Hpre)].
    + left. unfold no_nul in *. cbn [forallb]. now rewrite E, IH.
    + right. exists (c :: pre), r. split; [reflexivity|].
      unfold no_nul in *. cbn [forallb]. now rewrite E, Hpre.
Qed.

Lemma parse_header_cases h data :
  match TSReader.parse_header h data with
  | Returned (true, h', d') =>
      exists sm1,
        data = (sm1 ++ char_colon :: TSReader.filename h') ++ NUL :: d'
        /\ forallb TSReader.is_digit sm1 = true
        /\ TSReader.data_size h' = decimal_value sm1
        /\ header_ok h'
  | Returned (false, h', d') => h' = h /\ d' = data
  | Undefined =>
      exists sm1 sm2 r,
        data = (sm1 ++ char_colon :: sm2) ++ NUL :: r
        /\ forallb TSReader.is_digit sm1 = true
        /\ (TSReader.INT_MAX < decimal_value sm1)%N
  | OutOfFuel => False
  end.
Proof.
  destruct (first_nul_split data) as [Hnn|(pre & r & -> & Hpre)].
  - unfold TSReader.parse_header.
    rewrite parse_header_from_no_nul by assumption. auto.
  - destruct (TSReader.regex_match pre) as [[sm1 sm2]|] eqn:Ere.
    + rewrite (parse_header_match h r Hpre Ere).
      apply regex_match_sound in Ere as (-> & Hd & Hdot).
      apply no_nul_app in Hpre as [_ Hnm].
      unfold no_nul in Hnm. cbn [forallb] in Hnm.
      apply andb_true_iff in Hnm as [_ Hnm].
      unfold TSReader.atoi.
      destruct (N.leb_spec (TSReader.atoi_acc sm1 0) TSReader.INT_MAX);
        cbn [bind].
      * exists sm1. cbn [TSReader.filename TSReader.data_size].
        repeat split; auto.
      * exists sm1, sm2, r. auto.
    + unfold TSReader.parse_header.
      rewrite parse_header_from_mismatch by (now rewrite c_str_app).
      auto.
Qed.

(** X9 — what [parse_header] accepts.  [TSReader::parse_header] returns
    true exactly on a buffer that starts with a run of decimal digits of
    value at most [INT_MAX], a colon, a name without NUL, line feed or
    carriage return, and a NUL; it then gives that value and that name,
    and takes the buffer to what follows the NUL, unchanged. *)
Theorem parse_header_accepts h data h' d' :
  TSReader.parse_header h data = Returned (true, h', d')
  <-> exists sm1,
        data = (sm1 ++ char_colon :: TSReader.filename h') ++ NUL :: d'
        /\ forallb TSReader.is_digit sm1 = true
        /\ TSReader.data_size h' = decimal_value sm1
        /\ header_ok h'.
Proof.
  split.
  - intros E. pose proof (parse_header_cases h data) as H.
    now rewrite E in H.
  - intros (sm1 & -> & Hd & Hsz & [Hnn Hdot] & Hmax).
    destruct h' as [nm sz]. cbn [TSReader.filename TSReader.data_size] in *.
    rewrite parse_header_match with (sm1 := sm1) (sm2 := nm).
    + unfold TSReader.atoi. fold (decimal_value sm1). rewrite <- Hsz.
      apply N.leb_le in Hmax. now rewrite Hmax.
    + apply no_nul_app. split.
      * unfold no_nul. apply forallb_weaken with (f := TSReader.is_digit);
          [apply is_digit_not_nul | exact Hd].
      * unfold no_nul in *. cbn [forallb]. now rewrite Hnn.
    + apply regex_match_complete. repeat split; assumption.
Qed.

(** X10 — when [parse_header] declines or is undefined.
    [TSReader::parse_header] returns false only with the header and the
    buffer it was given, unchanged; and it is without defined result only
    on a buffer that starts with a run of digits of value above [INT_MAX],
    a colon, a name and a NUL. *)
Theorem parse_header_declines h data :
  (forall h' d',
      TSReader.parse_header h data = Returned (false, h', d') ->
      h' = h /\ d' = data)
  /\ (TSReader.parse_header h data = Undefined ->
      exists sm1 sm2 r,
        data = (sm1 ++ char_colon :: sm2) ++ NUL :: r
        /\ forallb TSReader.is_digit sm1 = true
        /\ (TSReader.INT_MAX < decimal_value sm1)%N).
Proof.
  pose proof (parse_header_cases h data) as H. split.
  - intros h' d' E. now rewrite E in H.
  - intros E. now rewrite E in H.
Qed.

(** ** What the reader keeps true *)

Lemma absorb_ok st x st' :
  state_ok st -> absorb st x = Returned st' -> state_ok st'.
Proof.
  intros [Hes Hh]. unfold absorb.
  assert (Hcase :
    forall ok h d,
      (ok = true -> header_ok h) ->
      (if ok && (TSReader.data_size h <=? N.of_nat (length d))%N
       then Returned
              (TSReader.mkState
                 (TSReader.m_entries st
                    ++ [TSReader.mkEntry (TSReader.filename h)
                          (firstn (N.to_nat (TSReader.data_size h)) d)])
                 [] h false)
       else Returned (TSReader.mkState (TSReader.m_entries st) d h ok))
      = Returned st' ->
      state_ok st').
  { intros ok h d Hok. destruct ok; cbn [andb].
    - destruct (Hok eq_refl) as [Hname Hmax].
      destruct (N.leb_spec (TSReader.data_size h) (N.of_nat (length d)))
        as [Hle|Hgt]; intros [= <-]; split; reader_fields.
      + apply Forall_app. split; [exact Hes|]. constructor; [|constructor].
        split; cbn [restage TSWriter.name TSWriter.data TSReader.name
                    TSReader.data]; [exact Hname|].
        rewrite length_firstn. unfold TSReader.INT_MAX in *. lia.
      + discriminate.
      + exact Hes.
      + intros _. split; [split; assumption | exact Hgt].
    - intros [= <-]. split; reader_fields; [exact Hes | discriminate]. }
  destruct (TSReader.header_valid st) eqn:Ev.
  - cbn [bind]. apply Hcase. intros _. now destruct (Hh eq_refl).
  - pose proof (parse_header_cases (TSReader.header st)
                                   (TSReader.awmk_stream st ++ x)) as Hp.
    destruct (TSReader.parse_header _ _) as [[[ok h] d]| |]; cbn [bind];
      [|discriminate|discriminate].
    apply Hcase. intros ->. now destruct Hp as (sm1 & _ & _ & _ & Hok).
Qed.

Lemma process_packet_ok st p st' :
  state_ok st -> TSReader.process_packet st p = Returned st' -> state_ok st'.
Proof.
  intros Hok. destruct (get_id p) eqn:E.
  - rewrite process_packet_file by assumption. apply absorb_ok.
    destruct Hok as [Hes _]. split; [exact Hes | discriminate].
  - rewrite process_packet_data by assumption. now apply absorb_ok.
  - rewrite process_packet_unknown by assumption. now intros [= <-].
Qed.

Lemma run_packets_ok pkts : forall st st',
  state_ok st -> run_packets st pkts = Returned st' -> state_ok st'.
Proof.
  induction pkts as [|p pkts IH]; intros st st' Hok; cbn [run_packets].
  - now intros [= <-].
  - destruct (TSReader.process_packet st p) as [st1| |] eqn:E; cbn [bind];
      [|discriminate|discriminate].
    apply IH. now apply (process_packet_ok p Hok).
Qed.

Lemma load_loop_ok fuel : forall infile err st e st',
  state_ok st ->
  TSReader.load_loop fuel infile err st = Returned (e, st') -> state_ok st'.
Proof.
  induction fuel as [|fuel IH]; intros infile err st e st' Hok;
    [discriminate|].
  cbn [TSReader.load_loop]. destruct (feof infile).
  - now intros [= _ <-].
  - destruct (read fresh_packet infile err) as [[[ok p] f] e0].
    destruct ok; cbn [negb].
    + destruct (TSReader.process_packet st p) as [st1| |] eqn:E; cbn [bind];
        [|discriminate|discriminate].
      apply IH. now apply (process_packet_ok p Hok).
    + destruct (is_error e0); [now intros [= _ <-] | now apply IH].
Qed.

Lemma init_ok es : Forall reader_entry_ok es -> state_ok (TSReader.init es).
Proof. intros H. split; [exact H | discriminate]. Qed.

(** X11 — what is recovered can be staged.  Every entry that
    [TSReader::load] recovers, from any stream and also when it returns an
    error, has a name without NUL, line feed or carriage return and at
    most [INT_MAX] bytes of data: it is an entry that, staged again, the
    header pattern and [atoi] take whole. *)
Theorem load_entries_ok infile e es' :
  TSReader.load infile [] = Returned (e, es') -> Forall reader_entry_ok es'.
Proof.
  destruct infile as [f|]; [|discriminate]. unfold TSReader.load.
  destruct (TSReader.load_loop _ f NONE (TSReader.init [])) as [[e0 st]| |]
    eqn:E; cbn [bind]; [|discriminate|discriminate].
  intros [= _ <-].
  apply (load_loop_ok _ _ _ (init_ok (Forall_nil _)) E).
Qed.

(** X11 at the stream of the lone continuation packet. *)
Lemma load_entries_ok_witness :
  TSReader.load (Some (opened (m_data orphan_packet))) []
  = Returned (NONE, [TSReader.mkEntry (bytes_of "x") (bytes_of "abc")])
  /\ Forall reader_entry_ok
            [TSReader.mkEntry (bytes_of "x") (bytes_of "abc")].
Proof.
  assert (H : TSReader.load (Some (opened (m_data orphan_packet))) []
              = Returned (NONE,
                          [TSReader.mkEntry (bytes_of "x") (bytes_of "abc")]))
    by (vm_compute; reflexivity).
  split; [exact H|].
  exact (@load_entries_ok _ _ _ H).
Defined.

(** X12 — a known header waits for bytes.  After any sequence of
    packets, if the reader holds a parsed header, that header has a name
    the pattern takes whole and a size of at most [INT_MAX], and the
    buffer is shorter than that size: an entry is emitted with the very
    packet that brings its last byte, never later. *)
Theorem known_header_waits pkts es st :
  run_packets (TSReader.init es) pkts = Returned st ->
  TSReader.header_valid st = true ->
  header_ok (TSReader.header st)
  /\ (N.of_nat (length (TSReader.awmk_stream st))
      < TSReader.data_size (TSReader.header st))%N.
Proof.
  intros Hrun Hv.
  assert (Hok : state_ok (TSReader.mkState [] [] (TSReader.mkHeader [] 0) false))
    by (split; [constructor | discriminate]).
  assert (Hrun' : exists st0,
             run_packets (TSReader.init []) pkts = Returned st0
             /\ TSReader.header_valid st0 = TSReader.header_valid st
             /\ TSReader.header st0 = TSReader.header st
             /\ TSReader.awmk_stream st0 = TSReader.awmk_stream st).
  { clear Hok Hv. revert Hrun.
    replace (TSReader.init es) with (with_earlier es (TSReader.init []))
      by (unfold with_earlier, TSReader.init; cbn; now rewrite app_nil_r).
    generalize (TSReader.init []). revert st.
    induction pkts as [|p pkts IH]; intros st s0; cbn [run_packets].
    - intros [= <-]. exists s0. repeat split.
    - rewrite process_packet_earlier.
      destruct (TSReader.process_packet s0 p) as [s1| |];
        cbn [bind outcome_map]; [|discriminate|discriminate].
      apply IH. }
  destruct Hrun' as (st0 & Hrun0 & E1 & E2 & E3).
  destruct (run_packets_ok _ Hok Hrun0) as [_ H].
  rewrite <- E2, <- E3. apply H. congruence.
Qed.

(** X12 at the first of the two packets of [entry_b]. *)
Lemma known_header_waits_witness :
  run_packets (TSReader.init []) (firstn 1 (entry_packets entry_b))
  = Returned (TSReader.mkState [] (repeat x42 166) (header_of entry_b) true)
  /\ header_ok (header_of entry_b)
  /\ (N.of_nat (length (repeat x42 166))
      < TSReader.data_size (header_of entry_b))%N.
Proof.
  assert (H : run_packets (TSReader.init []) (firstn 1 (entry_packets entry_b))
              = Returned (TSReader.mkState [] (repeat x42 166)
                                           (header_of entry_b) true))
    by (vm_compute; reflexivity).
  split; [exact H|].
  exact (@known_header_waits _ [] _ H eq_refl).
Defined.

(** ** Writing, then reading *)

Lemma flat_entry_packets_valid entries :
  Forall valid_packet (flat_map entry_packets entries).
Proof.
  apply Forall_flat_map. apply Forall_forall. intros e _.
  apply entry_packets_valid.
Qed.

Lemma process_output pkts entries r :
  Forall valid_packet pkts ->
  188 * (length pkts + length (flat_map entry_packets entries)) <= r ->
  exists r',
    TSWriter.process (Some (opened (stream_of pkts))) (Some (created r)) entries
    = Returned (NONE,
                Some (mkOFILE (stream_of (pkts ++ flat_map entry_packets entries))
                              r')).
Proof.
  intros Hv Hr. rewrite process_valid by assumption.
  unfold created. rewrite write_all_some. cbn [bind content room app].
  rewrite firstn_all2.
  - eexists. reflexivity.
  - rewrite length_stream_of, length_app;
      [lia | apply Forall_app; split;
             [assumption | apply flat_entry_packets_valid]].
Qed.

Lemma load_after pkts entries st0 :
  Forall valid_packet pkts -> Forall entry_ok entries ->
  run_packets (TSReader.init []) pkts = Returned st0 ->
  TSReader.load
    (Some (opened (stream_of (pkts ++ flat_map entry_packets entries)))) []
  = Returned (NONE, TSReader.m_entries st0 ++ map recovered entries).
Proof.
  intros Hv Hok Hrun.
  rewrite load_valid
    by (apply Forall_app; split;
        [assumption | apply flat_entry_packets_valid]).
  rewrite run_packets_app, Hrun. cbn [bind].
  destruct (run_entries st0 Hok) as (st' & -> & Hent).
  cbn [bind]. now rewrite Hent.
Qed.

Lemma recovered_restage es : map recovered (map restage es) = es.
Proof.
  induction es as [|[n d] es IH]; [reflexivity|].
  cbn [map]. now rewrite IH.
Qed.

(** X13 — what is recovered can be embedded again.  The entries that
    [TSReader::load] recovers from any stream, staged as they are and
    written by [TSWriter::process] after an empty input to an output with
    room for them, are recovered by [load] from that output: same names,
    same bytes, same order. *)
Theorem recovered_entries_round_trip infile e es r :
  TSReader.load infile [] = Returned (e, es) ->
  188 * length (flat_map entry_packets (map restage es)) <= r ->
  exists out,
    TSWriter.process (Some (opened [])) (Some (created r)) (map restage es)
    = Returned (NONE, Some out)
    /\ TSReader.load (Some (opened (content out))) [] = Returned (NONE, es).
Proof.
  intros Hload Hr.
  assert (Hok : Forall entry_ok (map restage es)).
  { apply Forall_map.
    destruct infile as [f|]; [|discriminate]. unfold TSReader.load in Hload.
    destruct (TSReader.load_loop _ f NONE (TSReader.init [])) as [[e0 st]| |]
      eqn:E; cbn [bind] in Hload; [|discriminate|discriminate].
    injection Hload as _ <-.
    apply (load_loop_ok _ _ _ (init_ok (Forall_nil _)) E). }
  destruct (@process_output [] (map restage es) r (Forall_nil _)) as [r' Hp];
    [cbn [length Nat.add]; exact Hr|].
  change (stream_of []) with (@nil byte) in Hp.
  eexists. split; [exact Hp|]. cbn [content].
  rewrite (load_after (pkts := []) (Forall_nil _) Hok eq_refl).
  cbn [TSReader.init TSReader.m_entries app]. now rewrite recovered_restage.
Qed.

(** X13 at the stream of the lone continuation packet. *)
Lemma recovered_entries_round_trip_witness :
  TSReader.load (Some (opened (m_data orphan_packet))) []
  = Returned (NONE, [TSReader.mkEntry (bytes_of "x") (bytes_of "abc")])
  /\ exists out,
       TSWriter.process (Some (opened [])) (Some (created 188))
         (map restage [TSReader.mkEntry (bytes_of "x") (bytes_of "abc")])
       = Returned (NONE, Some out)
       /\ TSReader.load (Some (opened (content out))) []
          = Returned (NONE, [TSReader.mkEntry (bytes_of "x") (bytes_of "abc")]).
Proof.
  assert (H : TSReader.load (Some (opened (m_data orphan_packet))) []
              = Returned (NONE,
                          [TSReader.mkEntry (bytes_of "x") (bytes_of "abc")]))
    by (vm_compute; reflexivity).
  split; [exact H|].
  apply (@recovered_entries_round_trip _ _ _ 188 H).
  vm_compute. apply le_n.
Defined.

(** X14 — embedding into a stream that holds entries already.  When the
    input is a valid transport stream from which [TSReader::load] recovers
    the entries [es0], then from the output of [TSWriter::process], given
    room, [load] recovers [es0] followed by the staged entries; whatever
    the input leaves unfinished is dropped at the first new start
    packet. *)
Theorem process_keeps_embedded pkts entries es0 r :
  Forall valid_packet pkts -> Forall entry_ok entries ->
  TSReader.load (Some (opened (stream_of pkts))) [] = Returned (NONE, es0) ->
  188 * (length pkts + length (flat_map entry_packets entries)) <= r ->
  exists out,
    TSWriter.process (Some (opened (stream_of pkts))) (Some (created r)) entries
    = Returned (NONE, Some out)
    /\ TSReader.load (Some (opened (content out))) []
       = Returned (NONE, es0 ++ map recovered entries).
Proof.
  intros Hv Hok Hload Hr.
  rewrite load_valid in Hload by assumption.
  destruct (run_packets (TSReader.init []) pkts) as [st0| |] eqn:Hrun;
    cbn [bind] in Hload; [|discriminate|discriminate].
  injection Hload as <-.
  destruct (process_output entries Hv Hr) as [r' Hp].
  eexists. split; [exact Hp|]. cbn [content].
  now apply load_after.
Qed.

(** X14 at an input that holds [entry_a], then the first of the two
    packets of [entry_b], then an ordinary packet; [entry_colon] is
    staged. *)
Lemma process_keeps_embedded_witness :
  let pkts := entry_packets entry_a
                ++ firstn 1 (entry_packets entry_b) ++ [plain_packet] in
  Forall valid_packet pkts /\ Forall entry_ok [entry_colon]
  /\ TSReader.load (Some (opened (stream_of pkts))) []
     = Returned (NONE, [recovered entry_a])
  /\ exists out,
       TSWriter.process (Some (opened (stream_of pkts))) (Some (created 752))
                        [entry_colon]
       = Returned (NONE, Some out)
       /\ TSReader.load (Some (opened (content out))) []
          = Returned (NONE, [recovered entry_a] ++ map recovered [entry_colon]).
Proof.
  intros pkts.
  assert (H1 : Forall valid_packet pkts) by (repeat constructor).
  assert (H2 : Forall entry_ok [entry_colon])
    by (repeat constructor; vm_compute; discriminate).
  assert (H3 : TSReader.load (Some (opened (stream_of pkts))) []
               = Returned (NONE, [recovered entry_a]))
    by (vm_compute; reflexivity).
  split; [exact H1|]. split; [exact H2|]. split; [exact H3|].
  apply (@process_keeps_embedded pkts [entry_colon] _ 752 H1 H2 H3).
  vm_compute. apply le_n.
Defined.

(** ** An entry cut short *)






(** ** The framed sequence *)

Lemma uint_bytes_nil d : TSWriter.uint_bytes d = [] -> d = Decimal.Nil.
Proof. destruct d; [reflexivity | discriminate..]. Qed.

(** X16 — the length field.  What [sprintf] prints for a size is a run
    of decimal digits that is not empty, and [atoi] reads the size back
    from it when the size is at most [INT_MAX]; for a larger size [atoi]
    is without defined result. *)
Theorem length_field_round_trip n :
  forallb TSReader.is_digit (TSWriter.sprintf_zd n) = true
  /\ TSWriter.sprintf_zd n <> []
  /\ decimal_value (TSWriter.sprintf_zd n) = N.of_nat n
  /\ TSReader.atoi (TSWriter.sprintf_zd n)
     = if (N.of_nat n <=? TSReader.INT_MAX)%N
       then Returned (N.of_nat n) else Undefined.
Proof.
  assert (Hval : decimal_value (TSWriter.sprintf_zd n) = N.of_nat n).
  { unfold decimal_value, TSWriter.sprintf_zd.
    change 0%N with (N.of_nat 0). rewrite atoi_acc_uint_bytes.
    fold (Nat.of_uint (Nat.to_uint n)). now rewrite Unsigned.of_to. }
  split; [apply sprintf_zd_digits|]. split; [|split; [exact Hval|]].
  - intros E. unfold TSWriter.sprintf_zd in E. apply uint_bytes_nil in E.
    pose proof (Unsigned.of_to n) as H. rewrite E in H. cbn in H. subst n.
    discriminate E.
  - unfold TSReader.atoi. fold (decimal_value (TSWriter.sprintf_zd n)).
    now rewrite Hval.
Qed.

(** X17 — the loop of inserts.  From index [start] on, the loop that
    inserts the characters left of the header one by one, each at the
    position of its index, leaves them as a whole at position [start] of
    the vector, what the vector held before and after that position in
    its order; from index 0 and the data of the entry, as
    [TSWriter::process] has it, the header comes first and the data
    follow. *)
Theorem header_inserted_whole start header data :
  start <= length data ->
  TSWriter.insert_header start header data
  = firstn start data ++ header ++ skipn start data.
Proof.
  intros H.
  rewrite <- (firstn_skipn start data) at 1.
  replace start with (length (firstn start data)) at 1
    by (rewrite length_firstn; lia).
  apply insert_header_app.
Qed.

(** X17 at position 0 of the data of [entry_a]. *)
Lemma header_inserted_whole_witness :
  0 <= length (TSWriter.data entry_a)
  /\ TSWriter.insert_header 0 (TSWriter.make_header entry_a)
                            (TSWriter.data entry_a)
     = TSWriter.make_header entry_a ++ TSWriter.data entry_a.
Proof.
  assert (H : 0 <= length (TSWriter.data entry_a)) by lia.
  split; [exact H|].
  exact (@header_inserted_whole 0 (TSWriter.make_header entry_a)
                                (TSWriter.data entry_a) H).
Defined.

(** ** The size of the output *)

Lemma length_entry_packets entry :
  length (entry_packets entry) = packets_needed entry.
Proof. unfold entry_packets, packets_needed. now apply length_chunk_packets. Qed.

Lemma length_flat_entry_packets entries :
  length (flat_map entry_packets entries)
  = list_sum (map packets_needed entries).
Proof.
  induction entries as [|e entries IH]; [reflexivity|].
  cbn [flat_map map list_sum].
  now rewrite length_app, IH, length_entry_packets.
Qed.



(** X19 — what a sink without room holds.  On a valid input, whatever
    room the output has, [TSWriter::process] leaves in it, after what it
    held, the front of the bytes it would have written with room for
    all: the packets go out in order and a short write cuts the
    sequence, nothing is written after the cut. *)
Theorem output_is_front pkts entries f :
  Forall valid_packet pkts ->
  exists f',
    TSWriter.process (Some (opened (stream_of pkts))) (Some f) entries
    = Returned (NONE, Some f')
    /\ content f'
       = content f
           ++ firstn (room f)
                (stream_of (pkts ++ flat_map entry_packets entries))
    /\ room f'
       = room f
         - 188 * (length pkts + list_sum (map packets_needed entries)).
Proof.
  intros Hv. rewrite process_valid by assumption.
  rewrite write_all_some. cbn [bind]. eexists. split; [reflexivity|].
  cbn [content room]. split; [reflexivity|].
  rewrite length_stream_of, length_app, length_flat_entry_packets;
    [reflexivity | apply Forall_app; split;
                   [assumption | apply flat_entry_packets_valid]].
Qed.

(** X19 at an input of one packet, [entry_a] staged, and a sink with
    room for 200 bytes. *)
Lemma output_is_front_witness :
  Forall valid_packet [plain_packet]
  /\ exists f',
       TSWriter.process (Some (opened (stream_of [plain_packet])))
                        (Some (created 200)) [entry_a]
       = Returned (NONE, Some f')
       /\ content f'
          = m_data plain_packet
              ++ firstn 12 (m_data (payload_packet awmk_file (framed entry_a)))
       /\ room f' = 0.
Proof.
  assert (H1 : Forall valid_packet [plain_packet]) by (repeat constructor).
  split; [exact H1|].
  destruct (@output_is_front [plain_packet] [entry_a] (created 200) H1)
    as (f' & Hp & Hc & Hr).
  exists f'. split; [exact Hp|]. split.
  - rewrite Hc. vm_compute. reflexivity.
  - rewrite Hr. vm_compute. reflexivity.
Defined.

(** X20 — an output that could not be opened.  On a valid input, with a
    null output stream, [TSWriter::process] returns (and then without
    error) only when the input is empty and nothing is staged; as soon as
    there is a packet to write, it calls [fwrite] on the null stream. *)
Theorem null_output pkts entries :
  Forall valid_packet pkts ->
  TSWriter.process (Some (opened (stream_of pkts))) None entries
  = match pkts, entries with
    | [], [] => Returned (NONE, None)
    | _, _ => Undefined
    end.
Proof.
  intros Hv. rewrite process_valid by assumption.
  destruct pkts as [|p pkts]; [|reflexivity].
  destruct entries as [|e entries]; [reflexivity|].
  cbn [app flat_map].
  destruct (entry_packets_cons e) as (first & others & -> & _).
  reflexivity.
Qed.

(** X20 at an empty input and one staged entry. *)
Lemma null_output_witness :
  Forall valid_packet []
  /\ TSWriter.process (Some (opened (stream_of []))) None [entry_a]
     = Undefined.
Proof.
  assert (H : Forall valid_packet []) by constructor.
  split; [exact H|].
  exact (@null_output [] [entry_a] H).
Defined.

(** ** Streams put end to end *)

Lemma run_packets_earlier es0 pkts : forall st,
  run_packets (with_earlier es0 st) pkts
  = outcome_map (with_earlier es0) (run_packets st pkts).
Proof.
  induction pkts as [|p pkts IH]; intros st; [reflexivity|].
  cbn [run_packets]. rewrite process_packet_earlier.
  destruct (TSReader.process_packet st p); cbn [bind outcome_map]; auto.
Qed.

Lemma run_after_start st st' p pkts :
  get_id p = awmk_file ->
  TSReader.m_entries st = TSReader.m_entries st' ->
  same_outcome (run_packets st (p :: pkts)) (run_packets st' (p :: pkts)).
Proof.
  intros E Hes. cbn [run_packets].
  rewrite !process_packet_file by assumption.
  assert (Hsame : same_progress (restart st) (restart st'))
    by (unfold restart; repeat split; cbn; auto; discriminate).
  pose proof (absorb_same (payload p) Hsame) as Hp.
  destruct (absorb (restart st) _), (absorb (restart st') _);
    cbn [bind]; try contradiction; try exact I.
  now apply run_packets_same.
Qed.

(** X21 — streams put end to end.  When the second of two valid
    transport streams begins with a start packet, [TSReader::load]
    recovers from the two put end to end the entries of the first
    followed by the entries of the second: what the first leaves
    unfinished has no effect on the second. *)
Theorem load_concat pkts1 p pkts2 es1 es2 :
  Forall valid_packet pkts1 -> Forall valid_packet (p :: pkts2) ->
  get_id p = awmk_file ->
  TSReader.load (Some (opened (stream_of pkts1))) [] = Returned (NONE, es1) ->
  TSReader.load (Some (opened (stream_of (p :: pkts2)))) []
  = Returned (NONE, es2) ->
  TSReader.load (Some (opened (stream_of (pkts1 ++ p :: pkts2)))) []
  = Returned (NONE, es1 ++ es2).
Proof.
  intros Hv1 Hv2 Hp H1 H2.
  rewrite load_valid in H1, H2 by assumption.
  rewrite load_valid by (apply Forall_app; split; assumption).
  destruct (run_packets (TSReader.init []) pkts1) as [st1| |] eqn:E1;
    cbn [bind] in H1; [|discriminate|discriminate].
  destruct (run_packets (TSReader.init []) (p :: pkts2)) as [st2| |] eqn:E2;
    cbn [bind] in H2; [|discriminate|discriminate].
  injection H1 as <-. injection H2 as <-.
  rewrite run_packets_app, E1. cbn [bind].
  assert (Hes : TSReader.m_entries st1
                = TSReader.m_entries
                    (with_earlier (TSReader.m_entries st1) (TSReader.init [])))
    by (cbn; now rewrite app_nil_r).
  pose proof (@run_after_start _ _ p pkts2 Hp Hes) as Hsame.
  rewrite run_packets_earlier, E2 in Hsame. cbn [outcome_map] in Hsame.
  destruct (run_packets st1 (p :: pkts2)) as [st| |];
    [|contradiction|contradiction].
  destruct Hsame as (Hst & _). cbn [bind]. now rewrite Hst.
Qed.

(** X21 at a first stream that ends in the middle of [entry_b] and a
    second that holds [entry_a]. *)
Lemma load_concat_witness :
  let pkts1 := plain_packet :: firstn 1 (entry_packets entry_b) in
  Forall valid_packet pkts1
  /\ Forall valid_packet (start_packet_a :: [plain_packet])
  /\ get_id start_packet_a = awmk_file
  /\ TSReader.load (Some (opened (stream_of pkts1))) [] = Returned (NONE, [])
  /\ TSReader.load (Some (opened (stream_of (start_packet_a :: [plain_packet]))))
                   []
     = Returned (NONE, [recovered entry_a])
  /\ TSReader.load
       (Some (opened (stream_of (pkts1 ++ start_packet_a :: [plain_packet]))))
       []
     = Returned (NONE, [] ++ [recovered entry_a]).
Proof.
  intros pkts1.
  assert (H1 : Forall valid_packet pkts1) by (repeat constructor).
  assert (H2 : Forall valid_packet (start_packet_a :: [plain_packet]))
    by (repeat constructor).
  assert (H3 : get_id start_packet_a = awmk_file) by reflexivity.
  assert (H4 : TSReader.load (Some (opened (stream_of pkts1))) []
               = Returned (NONE, []))
    by (vm_compute; reflexivity).
  assert (H5 : TSReader.load
                 (Some (opened (stream_of (start_packet_a :: [plain_packet]))))
                 []
               = Returned (NONE, [recovered entry_a]))
    by (vm_compute; reflexivity).
  repeat (split; [assumption|]).
  exact (@load_concat pkts1 start_packet_a [plain_packet] [] _ H1 H2 H3 H4 H5).
Defined.

(** ** Staging a file *)


